(** * Search paths of appleseed.foundation: a model of [SearchPaths]

    The development follows [foundation/utility/searchpaths.cpp]: the
    private state block [SearchPaths::Impl], the mutators, the two lookups
    [exist] and [do_qualify], and the serialisation [do_to_string].  The
    tables of the diagnostic surface shader come first.

    C strings ([const char*]) are modelled as [string]; a null pointer is not
    a value of that type, which is what the source's [assert(path)] demands.
    A [bf::path] is modelled by the string it holds: constructing a path from
    a string and reading it back with [string()] is the identity. *)

From Stdlib Require Import Ascii.
From stdpp Require Import base option list strings gmap.

(** ** foundation/utility/string.h *)

Module Util.

(** Modelled from the spec: [foundation::split], declared in
    foundation/utility/string.h and called by the constructor and by
    [split_and_push_back].  The spec says that the string is split on the
    separator and that empty tokens come through ("a:b::c" gives "a", "b",
    the empty token and "c"): every occurrence of the separator ends one
    token and starts the next. *)
Fixpoint split (s : string) (separator : ascii) : list string :=
  match s with
  | EmptyString => [EmptyString]
  | String c rest =>
      if Ascii.eqb c separator then EmptyString :: split rest separator
      else match split rest separator with
           | token :: tokens => String c token :: tokens
           | [] => [String c EmptyString]
           end
  end.

(** The inverse of [split]: the tokens with the separator between them. *)
Fixpoint join (separator : ascii) (tokens : list string) : string :=
  match tokens with
  | [] => EmptyString
  | token :: rest =>
      match rest with
      | [] => token
      | _ :: _ => token +:+ String separator (join separator rest)
      end
  end.

Fixpoint occurs (c : ascii) (s : string) : bool :=
  match s with
  | EmptyString => false
  | String c' rest => Ascii.eqb c' c || occurs c rest
  end.

End Util.

(** ** renderer/kernel/shading/diagnosticsurfaceshader.cpp

    The two tables of shading modes, the choice of the shading mode in
    [extract_parameters] and the drop-down list of
    [get_widget_definitions].  The enumeration [ShadingMode] and its count
    [ShadingModeCount] are declared in the header; the modes are those the
    table and the [switch] of [evaluate] name, and the count is a parameter
    [count] of what reads it. *)

Module DiagnosticSurfaceShader.

Inductive ShadingMode : Type :=
  | Coverage
  | Barycentric
  | UV
  | Tangent
  | Bitangent
  | GeometricNormal
  | ShadingNormal
  | OriginalShadingNormal
  | Sides
  | Depth
  | Wireframe
  | AmbientOcclusion
  | AssemblyInstances
  | ObjectInstances
  | Regions
  | Triangles
  | Materials.

#[export] Instance ShadingMode_eq_dec : EqDecision ShadingMode.
Proof. solve_decision. Defined.

Definition ShadingModeValues : list (string * ShadingMode) :=
  [ ("coverage", Coverage);
    ("barycentric", Barycentric);
    ("uv", UV);
    ("tangent", Tangent);
    ("bitangent", Bitangent);
    ("geometric_normal", GeometricNormal);
    ("shading_normal", ShadingNormal);
    ("original_shading_normal", OriginalShadingNormal);
    ("sides", Sides);
    ("depth", Depth);
    ("wireframe", Wireframe);
    ("ambient_occlusion", AmbientOcclusion);
    ("assembly_instances", AssemblyInstances);
    ("object_instances", ObjectInstances);
    ("regions", Regions);
    ("triangles", Triangles);
    ("materials", Materials) ].

Definition ShadingModeNames : list (string * string) :=
  [ ("coverage", "Coverage");
    ("barycentric", "Barycentric Coordinates");
    ("uv", "UV Coordinates");
    ("tangent", "Tangents");
    ("bitangent", "Bitangents");
    ("geometric_normal", "Geometric Normals");
    ("shading_normal", "Shading Normals");
    ("original_shading_normal", "Original Shading Normals");
    ("sides", "Sides");
    ("depth", "Depth");
    ("wireframe", "Wireframe");
    ("ambient_occlusion", "Ambient Occlusion");
    ("assembly_instances", "Assembly Instances");
    ("object_instances", "Object Instances");
    ("regions", "Regions");
    ("triangles", "Triangles");
    ("materials", "Materials") ].

(** The calls [model_items.insert(shading_mode_name, shading_mode_value)]
    of [get_widget_definitions], in order: the key is the readable name, the
    value is the mode's string. *)
Definition model_items (count : nat) : list (string * string) :=
  map (λ pair, (pair.2, pair.1)) (take count ShadingModeNames).

(** The value of the entry "default" of the widget definition, which is also
    the default that [extract_parameters] passes to [get_required]. *)
Definition default_mode_string : string := "coverage".

Section Lookup.

(** [foundation::lookup_kvpair_array] of foundation/utility/kvpair.h, which
    is not part of the files at hand. *)
Variable lookup_kvpair_array :
  list (string * ShadingMode) → string → option (string * ShadingMode).

(** The shading mode that [extract_parameters] stores for [mode_string],
    and whether it logs the error "invalid shading mode". *)
Definition extract_shading_mode (count : nat) (mode_string : string)
    : ShadingMode * bool :=
  match lookup_kvpair_array (take count ShadingModeValues) mode_string with
  | Some mode_pair => (mode_pair.2, false)
  | None => (Coverage, true)
  end.

End Lookup.

(** A linear search for the first pair with the key, to run the model. *)
Definition find_kvpair (kvpairs : list (string * ShadingMode)) (key : string)
    : option (string * ShadingMode) :=
  List.find (λ pair, String.eqb pair.1 key) kvpairs.

End DiagnosticSurfaceShader.

(** ** The collaborators the file calls into

    [getenv] of the C library and the four operations of Boost.Filesystem
    that the source uses: [path::is_absolute], [operator/],
    [path::make_preferred] and [bf::exists].  They are parameters of the
    model; [bf::exists] is taken to answer for every path. *)

Class Platform := {
  getenv : string → option string;
  is_absolute : string → bool;
  path_append : string → string → string;
  make_preferred : string → string;
  fs_exists : string → bool
}.

(** Two facts of Boost.Filesystem that the serialisation relies on: the
    empty path is not absolute, and appending to a path that is not empty
    gives a path that is not empty. *)
Class PlatformLaws (P : Platform) : Prop := {
  empty_not_absolute : is_absolute EmptyString = false;
  append_not_empty r p : r ≠ EmptyString → path_append r p ≠ EmptyString
}.

Declare Scope path_scope.
Delimit Scope path_scope with path.
Infix "//" := path_append (at level 40, left associativity) : path_scope.
Local Open Scope path_scope.

(** [bf::path::is_relative] is the negation of [is_absolute]. *)
Definition is_relative `{Platform} (p : string) : bool := negb (is_absolute p).

(** [std::string::empty] and [bf::path::empty]. *)
Definition empty_str (s : string) : bool :=
  match s with
  | EmptyString => true
  | String _ _ => false
  end.

(** ** A concrete platform

    A POSIX reading of the collaborators, for running the model: an
    environment given as a list of bindings, a disk given as the list of the
    paths that exist, absolute paths start with a slash, [make_preferred]
    changes nothing, and [operator/] is that of Boost.Filesystem 3: the
    right operand is appended, after a slash unless it is empty, or starts
    with one, or the left operand is empty or ends with one. *)

Module Posix.

Definition slash : ascii := "/"%char.

Definition starts_with_slash (p : string) : bool :=
  match p with
  | String c _ => Ascii.eqb c slash
  | EmptyString => false
  end.

Fixpoint ends_with_slash (p : string) : bool :=
  match p with
  | EmptyString => false
  | String c EmptyString => Ascii.eqb c slash
  | String _ rest => ends_with_slash rest
  end.

Definition append (lhs rhs : string) : string :=
  if empty_str rhs then lhs
  else if starts_with_slash rhs || empty_str lhs || ends_with_slash lhs
  then lhs +:+ rhs
  else lhs +:+ String slash rhs.

Fixpoint lookup_env (env : list (string * string)) (name : string) : option string :=
  match env with
  | [] => None
  | (n, v) :: env' => if String.eqb n name then Some v else lookup_env env' name
  end.

Definition on_disk (disk : list string) (p : string) : bool :=
  existsb (String.eqb p) disk.

Definition platform (env : list (string * string)) (disk : list string) : Platform :=
  {| getenv := lookup_env env;
     is_absolute := starts_with_slash;
     path_append := append;
     make_preferred := λ p, p;
     fs_exists := on_disk disk |}.

End Posix.

(** ** Queries to the file system

    [bf::exists] reads the disk.  A computation that probes the disk is a
    value together with the paths it asked about, oldest first. *)

Definition Probe (A : Type) : Type := (list string * A)%type.

Definition probed {A} (m : Probe A) : list string := m.1.
Definition answer {A} (m : Probe A) : A := m.2.

Definition probe_ret {A} (a : A) : Probe A := ([], a).
Definition probe_bind {A B} (m : Probe A) (f : A → Probe B) : Probe B :=
  let r := f m.2 in (m.1 ++ r.1, r.2).

Notation "'ask' x <- m ; k" := (probe_bind m (λ x, k))
  (at level 10, x name, m at level 100, k at level 200).

Definition bf_exists `{Platform} (p : string) : Probe bool := ([p], fs_exists p).

(** ** SearchPaths::Impl *)

Record Impl := mkImpl {
  m_root_path : string;
  m_explicit_paths : list string;
  m_environment_paths : list string;
  m_all_paths : list string
}.

Module SearchPaths.
Section WithPlatform.
Context {P : Platform}.

Definition environment_path_separator (win32 : bool) : ascii :=
  if win32 then ";"%char else ":"%char.
Definition osl_path_separator : ascii := ":"%char.

(** [SearchPaths::SearchPaths()] *)
Definition create : Impl := mkImpl EmptyString [] [] [].

(** One turn of the constructor's loop over the tokens. *)
Definition env_step (impl : Impl) (i : string) : Impl :=
  if negb (is_absolute i) then impl
  else if negb (empty_str i) then
    mkImpl (m_root_path impl) (m_explicit_paths impl)
           (m_environment_paths impl ++ [i]) (m_all_paths impl ++ [i])
  else impl.

(** [SearchPaths::SearchPaths(const char* envvar, const char separator)] *)
Definition create_from_env (envvar : string) (separator : ascii) : Impl :=
  match getenv envvar with
  | Some value => fold_left env_step (Util.split value separator) create
  | None => create
  end.

(** The tokens the constructor keeps. *)
Definition kept (t : string) : bool := is_absolute t && negb (empty_str t).

Definition set_root_path (s : Impl) (path : string) : Impl :=
  mkImpl (make_preferred path)
         (m_explicit_paths s) (m_environment_paths s) (m_all_paths s).

Definition has_root_path (s : Impl) : bool := negb (empty_str (m_root_path s)).

Definition clear (s : Impl) : Impl := mkImpl EmptyString [] [] [].

Definition reset (s : Impl) : Impl :=
  mkImpl (m_root_path s) [] (m_environment_paths s) (m_environment_paths s).

Definition empty (s : Impl) : bool :=
  match m_explicit_paths s with [] => true | _ => false end.

Definition size (s : Impl) : nat := length (m_explicit_paths s).

(** [operator[]]: [None] stands for the failed [assert(i < size())]. *)
Definition at_index (s : Impl) (i : nat) : option string :=
  if decide (i < size s) then m_explicit_paths s !! i else None.

Definition push_back (s : Impl) (path : string) : Impl :=
  mkImpl (m_root_path s) (m_explicit_paths s ++ [path])
         (m_environment_paths s) (m_all_paths s ++ [path]).

Definition split_and_push_back (s : Impl) (paths : string) (separator : ascii) : Impl :=
  fold_left push_back (Util.split paths separator) s.

(** [remove]: [None] stands for the failed [assert(i < size())]; otherwise
    the vector [m_explicit_paths] loses the element at [begin() + i]. *)
Definition remove (s : Impl) (i : nat) : option Impl :=
  if decide (i < size s) then
    Some (mkImpl (m_root_path s) (delete i (m_explicit_paths s))
                 (m_environment_paths s) (m_all_paths s))
  else None.

(** The search path a lookup tries for the entry [i] of [m_all_paths]. *)
Definition anchored (s : Impl) (i : string) : string :=
  if has_root_path s && is_relative i then m_root_path s // i else i.

(** The loop of [exist] over [m_all_paths.rbegin() .. rend()]. *)
Fixpoint exist_loop (s : Impl) (fp : string) (it : list string) : Probe bool :=
  match it with
  | [] => probe_ret false
  | i :: it' =>
      let search_path := anchored s i in
      ask hit <- bf_exists (search_path // fp);
      if hit then probe_ret true else exist_loop s fp it'
  end.

(** "Look in the root path if there is one." *)
Definition exist_root (s : Impl) (fp : string) : Probe bool :=
  if has_root_path s then bf_exists (m_root_path s // fp) else probe_ret false.

Definition exist_probe (s : Impl) (filepath : string) : Probe bool :=
  let fp := filepath in
  if negb (is_absolute fp) then
    ask found <- exist_loop s fp (rev (m_all_paths s));
    if found then probe_ret true
    else
      ask in_root <- exist_root s fp;
      if in_root then probe_ret true else bf_exists fp
  else bf_exists fp.

Definition exist (s : Impl) (filepath : string) : bool :=
  answer (exist_probe s filepath).

Definition do_get_root_path (s : Impl) : string := m_root_path s.

(** What [do_qualify] stores through its two out parameters (the second
    when the caller passes a place for it); [None] is the null pointer
    written to [*search_path_cstr]. *)
Record Qualified := mkQualified {
  qualified_filepath : string;
  search_path : option string
}.

(** The loop of [do_qualify]; [Some] is the early [return]. *)
Fixpoint qualify_loop (s : Impl) (fp : string) (it : list string)
    : Probe (option Qualified) :=
  match it with
  | [] => probe_ret None
  | i :: it' =>
      let search_path := anchored s i in
      let qualified_fp := search_path // fp in
      ask hit <- bf_exists qualified_fp;
      if hit then probe_ret (Some (mkQualified (make_preferred qualified_fp) (Some i)))
      else qualify_loop s fp it'
  end.

Definition qualify_root (s : Impl) (fp : string) : Probe (option Qualified) :=
  if has_root_path s then
    let qualified_fp := m_root_path s // fp in
    ask hit <- bf_exists qualified_fp;
    if hit then probe_ret (Some (mkQualified (make_preferred qualified_fp) None))
    else probe_ret None
  else probe_ret None.

Definition do_qualify_probe (s : Impl) (filepath : string) : Probe Qualified :=
  let fp := filepath in
  let fallback := mkQualified fp None in
  if negb (is_absolute fp) then
    ask r <- qualify_loop s fp (rev (m_all_paths s));
    match r with
    | Some q => probe_ret q
    | None =>
        ask r' <- qualify_root s fp;
        match r' with
        | Some q => probe_ret q
        | None => probe_ret fallback
        end
    end
  else probe_ret fallback.

Definition do_qualify (s : Impl) (filepath : string) : Qualified :=
  answer (do_qualify_probe s filepath).

(** One turn of the loop of [do_to_string] over the local vector [paths]. *)
Definition to_string_step (s : Impl) (separator : ascii)
    (paths_str : string) (p : string) : string :=
  let emit (q : string) :=
    (if negb (empty_str paths_str)
     then paths_str +:+ String separator EmptyString
     else paths_str) +:+ q in
  if is_relative p then
    if negb (has_root_path s) then paths_str
    else emit (m_root_path s // p)
  else emit p.

Definition do_to_string (s : Impl) (separator : ascii) (reversed : bool) : string :=
  let root_path := has_root_path s in
  let paths := (if root_path then [m_root_path s] else []) ++ m_all_paths s in
  let paths := if reversed then rev paths else paths in
  fold_left (to_string_step s separator) paths EmptyString.

(** The path a lookup of [fp] tests for the entry [i] of [m_all_paths]. *)
Definition candidate (s : Impl) (fp i : string) : string := anchored s i // fp.

(** The search chain of [fp]: the candidates of the entries of
    [m_all_paths], last appended first, then [root / fp] when a root is
    set. *)
Definition search_chain (s : Impl) (fp : string) : list string :=
  map (candidate s fp) (rev (m_all_paths s)) ++
  (if has_root_path s then [m_root_path s // fp] else []).

Definition missing (p : string) : Prop := fs_exists p = false.

(** Testing the paths of a list in order, up to the first that exists. *)
Fixpoint walk (l : list string) : Probe bool :=
  match l with
  | [] => ([], false)
  | p :: l' =>
      if fs_exists p then ([p], true)
      else let r := walk l' in (p :: r.1, r.2)
  end.

(** What [do_to_string] makes of one entry: a relative entry is anchored
    under the root, or dropped when there is no root. *)
Definition resolved (s : Impl) (p : string) : option string :=
  if is_relative p then
    if has_root_path s then Some (m_root_path s // p) else None
  else Some p.

(** The effective search order: the root when one is set, then the entries
    of [m_all_paths] in stored order, resolved. *)
Definition effective_paths (s : Impl) : list string :=
  (if has_root_path s then [m_root_path s] else []) ++
  omap (resolved s) (m_all_paths s).

(** The states a caller can bring a resolver into.  Copy construction,
    assignment and [swap] hand over a state that is already reachable. *)
Inductive reachable : Impl → Prop :=
  | reach_create : reachable create
  | reach_create_from_env envvar separator :
      reachable (create_from_env envvar separator)
  | reach_set_root_path s path :
      reachable s → reachable (set_root_path s path)
  | reach_clear s : reachable s → reachable (clear s)
  | reach_reset s : reachable s → reachable (reset s)
  | reach_push_back s path : reachable s → reachable (push_back s path)
  | reach_split_and_push_back s paths separator :
      reachable s → reachable (split_and_push_back s paths separator)
  | reach_remove s i s' :
      reachable s → remove s i = Some s' → reachable s'.

(** CombinedPaths = EnvironmentPaths ++ ExplicitPaths. *)
Definition combined (s : Impl) : Prop :=
  m_all_paths s = m_environment_paths s ++ m_explicit_paths s.

End WithPlatform.

(** ** Resolvers to run the model on

    A POSIX platform on which the variable APPLESEED_SEARCHPATH is "/A" and
    the disk holds "/proj/wood.png" and "/A/f". *)

Definition demo_platform : Platform :=
  Posix.platform [("APPLESEED_SEARCHPATH", "/A")] ["/proj/wood.png"; "/A/f"].

(** Root "/proj", explicit paths "textures" and "/abs/shaders". *)
Definition textures_resolver : Impl :=
  push_back
    (push_back (set_root_path (P:=demo_platform) create "/proj") "textures")
    "/abs/shaders".

(** No root, the environment path "/A", explicit paths "B" and "C". *)
Definition layered_resolver : Impl :=
  push_back
    (push_back
       (create_from_env (P:=demo_platform) "APPLESEED_SEARCHPATH" ":"%char) "B")
    "C".

(** The relative root "proj" and no search path. *)
Definition relative_root_resolver : Impl :=
  set_root_path (P:=demo_platform) create "proj".

(** ** Sequences of calls

    The mutators as data, to speak about what a caller does to a resolver
    over time; [run] of a [Remove] out of range is the failed assertion. *)

Inductive call : Type :=
  | SetRootPath (path : string)
  | Clear
  | Reset
  | PushBack (path : string)
  | SplitAndPushBack (paths : string) (separator : ascii)
  | Remove (i : nat).

Definition is_remove (c : call) : bool :=
  match c with Remove _ => true | _ => false end.

Definition on_explicit_paths (c : call) : bool :=
  match c with
  | PushBack _ | SplitAndPushBack _ _ | Remove _ => true
  | SetRootPath _ | Clear | Reset => false
  end.

Section Calls.
Context {P : Platform}.

Definition run (s : Impl) (c : call) : option Impl :=
  match c with
  | SetRootPath path => Some (set_root_path s path)
  | Clear => Some (clear s)
  | Reset => Some (reset s)
  | PushBack path => Some (push_back s path)
  | SplitAndPushBack paths separator => Some (split_and_push_back s paths separator)
  | Remove i => remove s i
  end.

Fixpoint run_all (s : Impl) (cs : list call) : option Impl :=
  match cs with
  | [] => Some s
  | c :: cs' =>
      match run s c with
      | Some s' => run_all s' cs'
      | None => None
      end
  end.

End Calls.

(** ** Handles

    A [SearchPaths] object holds the pointer [impl] to a block of the free
    store.  A world is the pointer of every live object and the content of
    every live block; objects and blocks are numbered. *)

Record World := mkWorld {
  impl_of : gmap nat nat;
  blocks : gmap nat Impl
}.

(** What the object [o] holds, through its pointer. *)
Definition state_of (w : World) (o : nat) : option Impl :=
  match impl_of w !! o with
  | Some l => blocks w !! l
  | None => None
  end.

(** The block that [new Impl] returns. *)
Definition new_block (w : World) : nat := fresh (dom (blocks w)).

(** [SearchPaths::SearchPaths()], for the new object [o]. *)
Definition construct (w : World) (o : nat) : World :=
  let l := new_block w in
  mkWorld (<[o := l]> (impl_of w)) (<[l := create]> (blocks w)).

(** [SearchPaths::SearchPaths(const SearchPaths& other)], for the new
    object [o]: [impl(new Impl( *other.impl))]. *)
Definition copy_construct (w : World) (o other : nat) : option World :=
  match state_of w other with
  | Some v =>
      let l := new_block w in
      Some (mkWorld (<[o := l]> (impl_of w)) (<[l := v]> (blocks w)))
  | None => None
  end.

(** [SearchPaths::~SearchPaths()]: [delete impl], and the object is gone. *)
Definition destroy (w : World) (o : nat) : option World :=
  match impl_of w !! o with
  | Some l => Some (mkWorld (delete o (impl_of w)) (delete l (blocks w)))
  | None => None
  end.

(** [SearchPaths::swap]: [std::swap(impl, other.impl)]. *)
Definition swap (w : World) (this other : nat) : option World :=
  match impl_of w !! this, impl_of w !! other with
  | Some l, Some l' =>
      Some (mkWorld (<[this := l']> (<[other := l]> (impl_of w))) (blocks w))
  | _, _ => None
  end.

(** [SearchPaths::operator=]: [SearchPaths tmp(other); swap(tmp);] and
    [tmp] is destroyed on return.  [tmp] is an object of its own. *)
Definition assign (w : World) (this other : nat) : option World :=
  let tmp := fresh (dom (impl_of w)) in
  match copy_construct w tmp other with
  | Some w1 =>
      match swap w1 this tmp with
      | Some w2 => destroy w2 tmp
      | None => None
      end
  | None => None
  end.

(** A mutator [f] called on the object [o]: it rewrites the block behind
    the pointer. *)
Definition update (w : World) (o : nat) (f : Impl → Impl) : option World :=
  match impl_of w !! o with
  | Some l =>
      match blocks w !! l with
      | Some v => Some (mkWorld (impl_of w) (<[l := f v]> (blocks w)))
      | None => None
      end
  | None => None
  end.

(** Every object points to a live block, no two objects share a block, and
    every live block belongs to an object. *)
Definition owned (w : World) : Prop :=
  (∀ o l, impl_of w !! o = Some l → is_Some (blocks w !! l)) ∧
  (∀ o o' l, impl_of w !! o = Some l → impl_of w !! o' = Some l → o = o') ∧
  (∀ l, is_Some (blocks w !! l) → ∃ o, impl_of w !! o = Some l).

(** Two resolvers with one path each, for running the handles. *)
Definition two_objects : World :=
  mkWorld {[ 0 := 0; 1 := 1 ]}
          {[ 0 := push_back create "a"; 1 := push_back create "b" ]}.
(** ** The mutators *)

Section Mutators.
Context {P : Platform}.

Lemma fold_env_step_root tokens s :
  m_root_path (fold_left env_step tokens s) = m_root_path s.
Proof.
  revert s. induction tokens as [|t tokens IH]; intros s; simpl; [done|].
  rewrite IH. unfold env_step. by repeat case_match.
Qed.

Lemma fold_env_step_explicit tokens s :
  m_explicit_paths (fold_left env_step tokens s) = m_explicit_paths s.
Proof.
  revert s. induction tokens as [|t tokens IH]; intros s; simpl; [done|].
  rewrite IH. unfold env_step. by repeat case_match.
Qed.

Lemma env_step_kept s t :
  env_step s t =
    if kept t
    then mkImpl (m_root_path s) (m_explicit_paths s)
                (m_environment_paths s ++ [t]) (m_all_paths s ++ [t])
    else s.
Proof. unfold env_step, kept. by destruct (is_absolute t), (empty_str t). Qed.

Lemma fold_env_step_environment tokens s :
  m_environment_paths (fold_left env_step tokens s) =
    m_environment_paths s ++ List.filter kept tokens.
Proof.
  revert s. induction tokens as [|t tokens IH]; intros s; simpl.
  - by rewrite app_nil_r.
  - rewrite IH, env_step_kept. destruct (kept t); simpl; [|done].
    by rewrite <- app_assoc.
Qed.

Lemma fold_env_step_all tokens s :
  m_all_paths (fold_left env_step tokens s) =
    m_all_paths s ++ List.filter kept tokens.
Proof.
  revert s. induction tokens as [|t tokens IH]; intros s; simpl.
  - by rewrite app_nil_r.
  - rewrite IH, env_step_kept. destruct (kept t); simpl; [|done].
    by rewrite <- app_assoc.
Qed.

Lemma fold_push_back tokens s :
  fold_left push_back tokens s =
    mkImpl (m_root_path s) (m_explicit_paths s ++ tokens)
           (m_environment_paths s) (m_all_paths s ++ tokens).
Proof.
  revert s. induction tokens as [|t tokens IH]; intros s; simpl.
  - rewrite !app_nil_r. by destruct s.
  - rewrite IH. simpl. by rewrite <- !app_assoc.
Qed.

(** Every mutator but [remove] keeps CombinedPaths in step. *)
Lemma combined_create : combined create.
Proof. done. Qed.

Lemma combined_create_from_env envvar separator :
  combined (create_from_env envvar separator).
Proof.
  unfold combined, create_from_env. destruct (getenv envvar) as [value|]; [|done].
  rewrite fold_env_step_all, fold_env_step_environment, fold_env_step_explicit.
  simpl. by rewrite app_nil_r.
Qed.

Lemma combined_set_root_path s path : combined s → combined (set_root_path s path).
Proof. done. Qed.

Lemma combined_clear s : combined (clear s).
Proof. done. Qed.

Lemma combined_reset s : combined (reset s).
Proof. unfold combined. simpl. by rewrite app_nil_r. Qed.

Lemma combined_push_back s path : combined s → combined (push_back s path).
Proof. unfold combined. simpl. intros ->. by rewrite app_assoc. Qed.

Lemma combined_split_and_push_back s paths separator :
  combined s → combined (split_and_push_back s paths separator).
Proof.
  unfold combined, split_and_push_back. rewrite fold_push_back. simpl.
  intros ->. by rewrite app_assoc.
Qed.

Lemma remove_Some s i :
  i < size s →
  remove s i = Some (mkImpl (m_root_path s) (delete i (m_explicit_paths s))
                            (m_environment_paths s) (m_all_paths s)).
Proof. intros Hi. unfold remove. by rewrite decide_True. Qed.

Lemma remove_None s i : size s ≤ i → remove s i = None.
Proof. intros Hi. unfold remove. rewrite decide_False; [done|lia]. Qed.

(** [remove] on a state where CombinedPaths is in step leaves it one entry
    too long. *)
Lemma remove_not_combined s i s' :
  combined s → remove s i = Some s' → ¬ combined s'.
Proof.
  unfold combined, remove. intros Hs Hrm Hs'.
  case_decide as Hi; [|done]. injection Hrm as <-. simpl in Hs'.
  apply (f_equal length) in Hs, Hs'. rewrite !length_app in *.
  rewrite length_delete in Hs' by (apply lookup_lt_is_Some_2; exact Hi).
  unfold size in Hi. lia.
Qed.

(** The lookups and the serialisation read only the root and
    [m_all_paths]. *)
Lemma exist_loop_root s s' fp it :
  m_root_path s = m_root_path s' → exist_loop s fp it = exist_loop s' fp it.
Proof.
  intros Hroot. induction it as [|i it IH]; simpl; [done|].
  unfold anchored, has_root_path. by rewrite Hroot, IH.
Qed.

Lemma qualify_loop_root s s' fp it :
  m_root_path s = m_root_path s' → qualify_loop s fp it = qualify_loop s' fp it.
Proof.
  intros Hroot. induction it as [|i it IH]; simpl; [done|].
  unfold anchored, has_root_path. by rewrite Hroot, IH.
Qed.

Lemma exist_probe_frame s s' filepath :
  m_root_path s = m_root_path s' → m_all_paths s = m_all_paths s' →
  exist_probe s filepath = exist_probe s' filepath.
Proof.
  intros Hroot Hall. unfold exist_probe, exist_root, has_root_path.
  by rewrite Hall, Hroot, (exist_loop_root s s' _ _ Hroot).
Qed.

Lemma do_qualify_probe_frame s s' filepath :
  m_root_path s = m_root_path s' → m_all_paths s = m_all_paths s' →
  do_qualify_probe s filepath = do_qualify_probe s' filepath.
Proof.
  intros Hroot Hall. unfold do_qualify_probe, qualify_root, has_root_path.
  by rewrite Hall, Hroot, (qualify_loop_root s s' _ _ Hroot).
Qed.

Lemma to_string_step_root s s' separator :
  m_root_path s = m_root_path s' →
  to_string_step s separator = to_string_step s' separator.
Proof.
  intros Hroot. unfold to_string_step, has_root_path. by rewrite Hroot.
Qed.

Lemma do_to_string_frame s s' separator reversed :
  m_root_path s = m_root_path s' → m_all_paths s = m_all_paths s' →
  do_to_string s separator reversed = do_to_string s' separator reversed.
Proof.
  intros Hroot Hall. unfold do_to_string, has_root_path.
  by rewrite Hall, Hroot, (to_string_step_root s s' _ Hroot).
Qed.

(** C1.  CombinedPaths = EnvironmentPaths ++ ExplicitPaths does not hold in
    every reachable state: an empty resolver, one [push_back] and the
    [remove] of that entry give a reachable state whose CombinedPaths still
    holds the removed path, while EnvironmentPaths ++ ExplicitPaths is
    empty. *)
Theorem remove_leaves_combined_behind (path : string) :
  ∃ s', remove (push_back create path) 0 = Some s' ∧
        reachable s' ∧
        m_all_paths s' = [path] ∧
        m_environment_paths s' ++ m_explicit_paths s' = [] ∧
        ¬ combined s'.
Proof.
  eexists. split; [reflexivity|]. split; [|by repeat split].
  apply (reach_remove (push_back create path) 0);
    [apply reach_push_back, reach_create|reflexivity].
Qed.

(** C4.  [push_back] followed by the [remove] of the last explicit entry
    restores the explicit paths and their count, but not CombinedPaths: the
    appended path stays at its end. *)
Theorem push_back_remove_last (s : Impl) (path : string) :
  ∃ s', remove (push_back s path) (size (push_back s path) - 1) = Some s' ∧
        size s' = size s ∧
        m_explicit_paths s' = m_explicit_paths s ∧
        m_all_paths s' = m_all_paths s ++ [path] ∧
        m_all_paths s' ≠ m_all_paths s.
Proof.
  assert (Hlast : size (push_back s path) - 1 = length (m_explicit_paths s)).
  { unfold size. simpl. rewrite length_app. simpl. lia. }
  rewrite Hlast, remove_Some by (unfold size; simpl; rewrite length_app; simpl; lia).
  eexists. split; [reflexivity|]. simpl.
  assert (Hdel : delete (length (m_explicit_paths s)) (m_explicit_paths s ++ [path])
                 = m_explicit_paths s).
  { by rewrite delete_middle, app_nil_r. }
  unfold size. simpl. rewrite Hdel. repeat split.
  intros Heq. apply (f_equal length) in Heq. rewrite length_app in Heq.
  simpl in Heq. lia.
Qed.

(** C6.  [reset] is idempotent, and after it there is no explicit path and
    CombinedPaths is the sequence of environment paths, which [reset] does
    not touch. *)
Theorem reset_idempotent_env_only (s : Impl) :
  reset (reset s) = reset s ∧
  size (reset s) = 0 ∧
  m_all_paths (reset s) = m_environment_paths s ∧
  m_environment_paths (reset s) = m_environment_paths s.
Proof. done. Qed.

(** C9.  Below [size], [operator[]] returns the element of ExplicitPaths at
    the index and [remove] is defined; at or above [size] the assertion of
    either fails. *)
Theorem index_contract (s : Impl) (i : nat) :
  (i < size s →
     (∃ path, at_index s i = Some path ∧ m_explicit_paths s !! i = Some path) ∧
     is_Some (remove s i)) ∧
  (size s ≤ i → at_index s i = None ∧ remove s i = None).
Proof.
  split.
  - intros Hi. split.
    + destruct (lookup_lt_is_Some_2 (m_explicit_paths s) i Hi) as [path Hpath].
      exists path. split; [|done]. unfold at_index. by rewrite decide_True.
    + rewrite remove_Some by done. by eexists.
  - intros Hi. split; [|by apply remove_None].
    unfold at_index. rewrite decide_False; [done|lia].
Qed.

(** C10.  Below [size], [remove] drops the entry from ExplicitPaths and
    touches neither the root, nor EnvironmentPaths, nor CombinedPaths: the
    lookups and the serialisation answer as before, the removed path
    included. *)
Theorem remove_frame (s : Impl) (i : nat) :
  i < size s →
  ∃ s', remove s i = Some s' ∧
        m_explicit_paths s' = take i (m_explicit_paths s) ++ drop (S i) (m_explicit_paths s) ∧
        size s' = size s - 1 ∧
        m_environment_paths s' = m_environment_paths s ∧
        m_all_paths s' = m_all_paths s ∧
        m_root_path s' = m_root_path s ∧
        (∀ filepath, exist_probe s' filepath = exist_probe s filepath) ∧
        (∀ filepath, do_qualify_probe s' filepath = do_qualify_probe s filepath) ∧
        (∀ separator reversed,
           do_to_string s' separator reversed = do_to_string s separator reversed).
Proof.
  intros Hi. rewrite remove_Some by done. eexists. split; [reflexivity|].
  simpl. split; [apply delete_take_drop|]. split.
  { unfold size. simpl. apply length_delete. by apply lookup_lt_is_Some_2. }
  split_and!; [done|done|done|..].
  - intros filepath. by apply exist_probe_frame.
  - intros filepath. by apply do_qualify_probe_frame.
  - intros separator reversed. by apply do_to_string_frame.
Qed.

End Mutators.

(** ** The lookups *)

Section Lookups.
Context {P : Platform}.

Lemma walk_miss l : Forall missing l → walk l = (l, false).
Proof.
  induction 1 as [|p l Hp _ IH]; simpl; [done|].
  unfold missing in Hp. by rewrite Hp, IH.
Qed.

Lemma walk_hit before p after :
  Forall missing before → fs_exists p = true →
  walk (before ++ p :: after) = (before ++ [p], true).
Proof.
  intros Hbefore Hp. induction Hbefore as [|q l Hq _ IH]; simpl.
  - by rewrite Hp.
  - unfold missing in Hq. by rewrite Hq, IH.
Qed.

Lemma walk_app l1 l2 :
  walk (l1 ++ l2) =
    if answer (walk l1) then walk l1
    else (probed (walk l1) ++ probed (walk l2), answer (walk l2)).
Proof.
  induction l1 as [|p l1 IH]; simpl.
  - by destruct (walk l2).
  - destruct (fs_exists p); simpl; [done|].
    rewrite IH. unfold answer, probed.
    by destruct (walk l1) as [ps [|]].
Qed.

Lemma exist_loop_walk s fp it :
  exist_loop s fp it = walk (map (candidate s fp) it).
Proof.
  induction it as [|i it IH]; simpl; [done|].
  unfold probe_bind, bf_exists, candidate. simpl.
  destruct (fs_exists (anchored s i // fp)); simpl; [done|].
  by rewrite IH.
Qed.

Lemma exist_probe_walk s fp :
  is_absolute fp = false →
  exist_probe s fp = walk (search_chain s fp ++ [fp]).
Proof.
  intros Hrel. unfold exist_probe, search_chain. rewrite Hrel. simpl.
  rewrite exist_loop_walk, <- app_assoc, walk_app.
  unfold probe_bind, exist_root, bf_exists, answer, probed.
  destruct (walk (map (candidate s fp) (rev (m_all_paths s)))) as [ps [|]]; simpl.
  - by rewrite app_nil_r.
  - destruct (has_root_path s); simpl.
    + by destruct (fs_exists (m_root_path s // fp)), (fs_exists fp).
    + by destruct (fs_exists fp).
Qed.

Lemma qualify_loop_miss s fp it :
  Forall (λ i, missing (candidate s fp i)) it →
  qualify_loop s fp it = (map (candidate s fp) it, None).
Proof.
  induction 1 as [|i it Hi _ IH]; simpl; [done|].
  unfold probe_bind, bf_exists. simpl. unfold missing, candidate in Hi.
  by rewrite Hi, IH.
Qed.

Lemma qualify_loop_hit s fp before i after :
  Forall (λ j, missing (candidate s fp j)) before →
  fs_exists (candidate s fp i) = true →
  qualify_loop s fp (before ++ i :: after) =
    (map (candidate s fp) before ++ [candidate s fp i],
     Some (mkQualified (make_preferred (candidate s fp i)) (Some i))).
Proof.
  intros Hbefore Hi. induction Hbefore as [|j l Hj _ IH]; simpl.
  - unfold probe_bind, bf_exists. simpl. unfold candidate in Hi. by rewrite Hi.
  - unfold probe_bind, bf_exists. simpl. unfold missing, candidate in Hj.
    by rewrite Hj, IH.
Qed.

(** [do_qualify] and [exist] walk the same paths. *)
Lemma qualify_loop_walk s fp it :
  probed (qualify_loop s fp it) = probed (walk (map (candidate s fp) it)) ∧
  answer (walk (map (candidate s fp) it)) =
    match answer (qualify_loop s fp it) with Some _ => true | None => false end.
Proof.
  induction it as [|i it [IHp IHa]]; simpl; [done|].
  unfold probe_bind, bf_exists, candidate, probed, answer in *. simpl.
  destruct (fs_exists (anchored s i // fp)); simpl; [done|].
  by rewrite IHp, IHa.
Qed.

Lemma same_walk s filepath :
  probed (exist_probe s filepath) = probed (do_qualify_probe s filepath) ∧
    exist s filepath = true
  ∨ probed (exist_probe s filepath) = probed (do_qualify_probe s filepath) ++ [filepath] ∧
    do_qualify s filepath = mkQualified filepath None.
Proof.
  unfold exist, do_qualify, exist_probe, do_qualify_probe.
  destruct (is_absolute filepath); simpl; [by right|].
  rewrite exist_loop_walk.
  destruct (qualify_loop_walk s filepath (rev (m_all_paths s))) as [Hp Ha].
  unfold probe_bind, probed, answer in *.
  destruct (qualify_loop s filepath (rev (m_all_paths s))) as [ps [q|]],
    (walk (map (candidate s filepath) (rev (m_all_paths s)))) as [ps' b];
    simpl in *; subst.
  - left. by rewrite ?app_nil_r.
  - unfold exist_root, qualify_root, bf_exists, probe_bind.
    destruct (has_root_path s); simpl.
    + destruct (fs_exists (m_root_path s // filepath)); simpl.
      * by left.
      * right. by rewrite <- ?app_assoc.
    + right. by rewrite ?app_nil_r.
Qed.

(** C2.  For a relative target, [exist] tests the paths of the search
    chain in order (the candidates of CombinedPaths from the last appended
    to the first, each anchored under the root when it is relative and a
    root is set, then [root / target] when a root is set) and last the
    target itself; it stops with [true] at the first path that exists and
    answers [false] when none does.  For an absolute target it tests the
    target alone. *)
Theorem exist_walks_search_chain (s : Impl) (filepath : string) :
  (is_absolute filepath = false →
     (Forall missing (search_chain s filepath ++ [filepath]) →
        exist_probe s filepath = (search_chain s filepath ++ [filepath], false)) ∧
     (∀ before p after,
        search_chain s filepath ++ [filepath] = before ++ p :: after →
        Forall missing before → fs_exists p = true →
        exist_probe s filepath = (before ++ [p], true))) ∧
  (is_absolute filepath = true →
     exist_probe s filepath = ([filepath], fs_exists filepath)).
Proof.
  split.
  - intros Hrel. rewrite (exist_probe_walk s filepath Hrel). split.
    + apply walk_miss.
    + intros before p after -> Hbefore Hp. by apply walk_hit.
  - intros Habs. unfold exist_probe. by rewrite Habs.
Qed.

(** C3.  [do_qualify] walks the search chain as [exist] does.  At the
    first candidate that exists it returns the candidate, made preferred,
    with the search path as it is stored; at a hit of [root / target] it
    returns that path, made preferred, with a null search path; when nothing
    in the chain exists, and for an absolute target, it returns the target
    unchanged with a null search path. *)
Theorem do_qualify_walks_search_chain (s : Impl) (filepath : string) :
  (is_absolute filepath = false →
     (∀ before i after,
        rev (m_all_paths s) = before ++ i :: after →
        Forall (λ j, missing (candidate s filepath j)) before →
        fs_exists (candidate s filepath i) = true →
        do_qualify_probe s filepath =
          (map (candidate s filepath) before ++ [candidate s filepath i],
           mkQualified (make_preferred (candidate s filepath i)) (Some i))) ∧
     (Forall (λ j, missing (candidate s filepath j)) (rev (m_all_paths s)) →
        has_root_path s = true →
        fs_exists (m_root_path s // filepath) = true →
        do_qualify_probe s filepath =
          (search_chain s filepath,
           mkQualified (make_preferred (m_root_path s // filepath)) None)) ∧
     (Forall missing (search_chain s filepath) →
        do_qualify_probe s filepath =
          (search_chain s filepath, mkQualified filepath None))) ∧
  (is_absolute filepath = true →
     do_qualify_probe s filepath = ([], mkQualified filepath None)) ∧
  (probed (exist_probe s filepath) = probed (do_qualify_probe s filepath) ∧
     exist s filepath = true
   ∨ probed (exist_probe s filepath) =
       probed (do_qualify_probe s filepath) ++ [filepath] ∧
     do_qualify s filepath = mkQualified filepath None).
Proof.
  split_and!; [|intros Habs; unfold do_qualify_probe; by rewrite Habs
               |apply same_walk].
  intros Hrel. unfold do_qualify_probe, search_chain. rewrite Hrel. simpl.
  split_and!.
  - intros before i after -> Hbefore Hi.
    rewrite (qualify_loop_hit s filepath before i after Hbefore Hi).
    unfold probe_bind, probe_ret. simpl. by rewrite ?app_nil_r.
  - intros Hmiss Hroot Hhit. rewrite (qualify_loop_miss s filepath _ Hmiss).
    unfold qualify_root, probe_bind, probe_ret, bf_exists.
    rewrite Hroot. simpl. rewrite Hhit. simpl. by rewrite ?app_nil_r.
  - intros Hmiss. apply Forall_app in Hmiss as [Hpaths Hroot].
    rewrite Forall_map in Hpaths.
    rewrite (qualify_loop_miss s filepath _ Hpaths).
    unfold qualify_root, probe_bind, probe_ret, bf_exists.
    destruct (has_root_path s); simpl.
    + inversion Hroot as [|? ? Hmiss _]. unfold missing in Hmiss.
      rewrite Hmiss. simpl. by rewrite ?app_nil_r.
    + done.
Qed.

End Lookups.

(** ** Construction from strings *)

Section Splitting.
Context {P : Platform}.

Lemma split_cons s separator :
  ∃ token tokens, Util.split s separator = token :: tokens.
Proof.
  destruct s as [|c s]; simpl; [by eexists _, _|].
  destruct (Ascii.eqb c separator); [by eexists _, _|].
  destruct (Util.split s separator); by eexists _, _.
Qed.

(** [split] loses nothing: the tokens, joined, give the string back. *)
Lemma join_split s separator :
  Util.join separator (Util.split s separator) = s.
Proof.
  induction s as [|c s IH]; [done|]. simpl.
  destruct (split_cons s separator) as (token & tokens & Hsplit).
  rewrite Hsplit in IH |- *.
  destruct (Ascii.eqb_spec c separator) as [->|Hc].
  - change (String separator (Util.join separator (token :: tokens)) = String separator s).
    by rewrite IH.
  - destruct tokens as [|token' tokens]; simpl in IH |- *; by rewrite <- IH.
Qed.

(** No token holds the separator. *)
Lemma split_tokens s separator :
  Forall (λ token, Util.occurs separator token = false) (Util.split s separator).
Proof.
  induction s as [|c s IH]; simpl; [by repeat constructor|].
  destruct (Ascii.eqb c separator) eqn:Hc; [by constructor|].
  destruct (Util.split s separator) as [|token tokens].
  - repeat constructor. simpl. by rewrite Hc.
  - inversion IH as [|? ? Htoken Htokens]; subst.
    constructor; [|done]. simpl. by rewrite Hc, Htoken.
Qed.

(** C7.  When the variable is set, the constructor keeps, in order, the
    tokens of its value that are absolute and not empty, in
    EnvironmentPaths and in CombinedPaths alike; when it is not set the
    resolver is empty.  Either way there is no explicit path and no root,
    and every environment path is absolute and not empty. *)
Theorem create_from_env_keeps_absolute (envvar : string) (separator : ascii) :
  match getenv envvar with
  | Some value =>
      m_environment_paths (create_from_env envvar separator) =
        List.filter kept (Util.split value separator) ∧
      m_all_paths (create_from_env envvar separator) =
        List.filter kept (Util.split value separator)
  | None => create_from_env envvar separator = create
  end ∧
  m_explicit_paths (create_from_env envvar separator) = [] ∧
  m_root_path (create_from_env envvar separator) = EmptyString ∧
  Forall (λ path, is_absolute path = true ∧ path ≠ EmptyString)
         (m_environment_paths (create_from_env envvar separator)).
Proof.
  unfold create_from_env. destruct (getenv envvar) as [value|].
  - rewrite fold_env_step_environment, fold_env_step_all,
      fold_env_step_explicit, fold_env_step_root. simpl.
    split_and!; [done..|].
    apply List.Forall_forall. intros path [_ Hkept]%List.filter_In.
    unfold kept in Hkept. apply andb_prop in Hkept as [Habs Hne].
    split; [done|]. intros ->. done.
  - split_and!; [done..|]. constructor.
Qed.

(** C8.  [split_and_push_back] appends the tokens of the string, in order
    and the empty ones included, to ExplicitPaths and to CombinedPaths, and
    changes nothing else; on an empty resolver "a:b::c" split on a colon
    gives the four explicit entries "a", "b", the empty string and "c". *)
Theorem split_and_push_back_appends_tokens
    (s : Impl) (paths : string) (separator : ascii) :
  m_explicit_paths (split_and_push_back s paths separator) =
    m_explicit_paths s ++ Util.split paths separator ∧
  m_all_paths (split_and_push_back s paths separator) =
    m_all_paths s ++ Util.split paths separator ∧
  m_environment_paths (split_and_push_back s paths separator) =
    m_environment_paths s ∧
  m_root_path (split_and_push_back s paths separator) = m_root_path s ∧
  m_explicit_paths (split_and_push_back create "a:b::c" ":"%char) =
    ["a"; "b"; EmptyString; "c"] ∧
  size (split_and_push_back create "a:b::c" ":"%char) = 4.
Proof.
  unfold split_and_push_back. rewrite fold_push_back. simpl. done.
Qed.

End Splitting.

(** ** Serialisation *)

Section Serialisation.
Context {P : Platform} {L : PlatformLaws P}.

Lemma append_assoc (a b c : string) : (a +:+ b) +:+ c = a +:+ b +:+ c.
Proof.
  induction a as [|x a IH]; [done|].
  change (String x ((a +:+ b) +:+ c) = String x (a +:+ b +:+ c)). by rewrite IH.
Qed.

Lemma append_empty_l (a : string) : EmptyString +:+ a = a.
Proof. done. Qed.

Lemma empty_str_true s : empty_str s = true ↔ s = EmptyString.
Proof. by destruct s. Qed.

Lemma empty_str_false s : empty_str s = false ↔ s ≠ EmptyString.
Proof. by destruct s. Qed.

Lemma append_not_empty_r (a b : string) : b ≠ EmptyString → a +:+ b ≠ EmptyString.
Proof. destruct a, b; done. Qed.

Lemma resolved_not_empty s p q : resolved s p = Some q → q ≠ EmptyString.
Proof.
  unfold resolved, is_relative. destruct (is_absolute p) eqn:Habs; simpl.
  - intros [= <-] ->. by rewrite empty_not_absolute in Habs.
  - destruct (has_root_path s) eqn:Hroot; [|done]. intros [= <-].
    apply append_not_empty. unfold has_root_path in Hroot.
    by apply empty_str_false, negb_true_iff.
Qed.

Lemma to_string_step_resolved s separator paths_str p :
  to_string_step s separator paths_str p =
    match resolved s p with
    | None => paths_str
    | Some q =>
        if empty_str paths_str then q
        else paths_str +:+ String separator q
    end.
Proof.
  unfold to_string_step, resolved.
  destruct (is_relative p), (has_root_path s), (empty_str paths_str) eqn:He;
    simpl; try done.
  all: try (apply empty_str_true in He as ->; done).
  all: by rewrite append_assoc.
Qed.

Lemma join_not_empty separator q qs :
  q ≠ EmptyString → Util.join separator (q :: qs) ≠ EmptyString.
Proof. destruct q, qs; done. Qed.

Lemma fold_to_string_step s separator paths paths_str :
  fold_left (to_string_step s separator) paths paths_str =
    match omap (resolved s) paths with
    | [] => paths_str
    | q :: qs =>
        if empty_str paths_str then Util.join separator (q :: qs)
        else paths_str +:+ String separator (Util.join separator (q :: qs))
    end.
Proof.
  revert paths_str. induction paths as [|p paths IH]; intros paths_str; [done|].
  cbn [fold_left omap list_omap]. rewrite IH, to_string_step_resolved.
  destruct (resolved s p) as [q|] eqn:Hq; [|done].
  assert (Hne : q ≠ EmptyString) by by eapply resolved_not_empty.
  destruct (empty_str paths_str) eqn:He.
  - apply empty_str_false in Hne. rewrite Hne.
    by destruct (omap (resolved s) paths).
  - assert (empty_str (paths_str +:+ String separator q) = false) as ->.
    { by apply empty_str_false, append_not_empty_r. }
    destruct (omap (resolved s) paths) as [|q' qs]; [done|].
    rewrite append_assoc.
    change (String separator q +:+ ?x) with (String separator (q +:+ x)).
    done.
Qed.

Lemma omap_rev {A B} (f : A → option B) (l : list A) :
  omap f (rev l) = rev (omap f l).
Proof.
  induction l as [|x l IH]; [done|].
  change (omap f (rev l ++ [x]) =
          rev (match f x with Some y => y :: omap f l | None => omap f l end)).
  rewrite omap_app, IH.
  change (omap f [x]) with (match f x with Some y => [y] | None => [] end).
  destruct (f x); [done|]. by rewrite app_nil_r.
Qed.

(** The string [do_to_string] returns: every entry of the local vector,
    the root included, resolved and joined. *)
Lemma do_to_string_join s separator reversed :
  do_to_string s separator reversed =
    let paths := (if has_root_path s then [m_root_path s] else []) ++ m_all_paths s in
    let resolved_paths := omap (resolved s) paths in
    Util.join separator (if reversed then rev resolved_paths else resolved_paths).
Proof.
  unfold do_to_string. rewrite fold_to_string_step. simpl.
  destruct reversed; [rewrite omap_rev|];
    by destruct (rev _) || by destruct (omap _ _).
Qed.

(** A relative root with no search path is serialised under itself. *)
Lemma do_to_string_root_twice s separator reversed :
  has_root_path s = true → is_absolute (m_root_path s) = false →
  m_all_paths s = [] →
  do_to_string s separator reversed = m_root_path s // m_root_path s.
Proof.
  intros Hroot Hrel Hall. rewrite do_to_string_join, Hroot, Hall. simpl.
  unfold resolved, is_relative. rewrite Hrel, Hroot. simpl. by destruct reversed.
Qed.

(** X12.  With no root, or an absolute one, the serialisation is the
    effective search order (the root, then the entries of CombinedPaths as
    stored, the relative ones anchored under the root, or dropped when there
    is none), reversed on demand, joined with the separator. *)
Lemma do_to_string_effective s separator reversed :
  has_root_path s = false ∨ is_absolute (m_root_path s) = true →
  do_to_string s separator reversed =
    Util.join separator
      (if reversed then rev (effective_paths s) else effective_paths s).
Proof.
  intros Hroot. rewrite do_to_string_join. simpl. unfold effective_paths.
  rewrite omap_app.
  assert (omap (resolved s) (if has_root_path s then [m_root_path s] else [])
          = if has_root_path s then [m_root_path s] else []) as ->; [|done].
  destruct (has_root_path s) eqn:Hhas; [|done].
  destruct Hroot as [|Habs]; [done|].
  simpl. unfold resolved, is_relative. by rewrite Habs.
Qed.

End Serialisation.

(** ** The model at work *)

Lemma posix_laws env disk : PlatformLaws (Posix.platform env disk).
Proof.
  split; [done|]. intros r p Hr. simpl. unfold Posix.append.
  destruct (empty_str p); [done|].
  destruct (_ || _); by destruct r.
Qed.

(** C5.  With the relative root "proj" and no search path, the effective
    search order is the root alone, but [do_to_string] anchors the root
    under itself and returns "proj/proj", reversed or not. *)
Theorem do_to_string_relative_root :
  has_root_path relative_root_resolver = true ∧
  @is_absolute demo_platform (m_root_path relative_root_resolver) = false ∧
  effective_paths (P:=demo_platform) relative_root_resolver = ["proj"] ∧
  do_to_string (P:=demo_platform) relative_root_resolver ":"%char false = "proj/proj" ∧
  do_to_string (P:=demo_platform) relative_root_resolver ":"%char true = "proj/proj".
Proof. by vm_compute. Qed.

(** The scenario of the root "/proj" with "textures" and "/abs/shaders":
    [exist] of "wood.png" tries the absolute entry as it is, then the
    anchored one, then the root, where the file is. *)
Lemma exist_wood :
  exist_probe (P:=demo_platform) textures_resolver "wood.png" =
    (["/abs/shaders/wood.png"; "/proj/textures/wood.png"; "/proj/wood.png"], true).
Proof.
  destruct (exist_walks_search_chain (P:=demo_platform) textures_resolver "wood.png")
    as [Hrelative _].
  destruct (Hrelative eq_refl) as [_ Hhit].
  apply (Hhit ["/abs/shaders/wood.png"; "/proj/textures/wood.png"]
              "/proj/wood.png" ["wood.png"]).
  - reflexivity.
  - repeat constructor.
  - reflexivity.
Defined.

(** Precedence: with the environment path "/A" and the explicit paths "B"
    then "C", [do_qualify] of "f" tries "C", "B" and "/A" in that order and
    names "/A" as the search path of the hit. *)
Lemma qualify_layered :
  do_qualify_probe (P:=demo_platform) layered_resolver "f" =
    (["C/f"; "B/f"; "/A/f"], mkQualified "/A/f" (Some "/A")).
Proof.
  destruct (do_qualify_walks_search_chain (P:=demo_platform) layered_resolver "f")
    as (Hrelative & _ & _).
  destruct (Hrelative eq_refl) as (Hhit & _ & _).
  apply (Hhit ["C"; "B"] "/A" []).
  - reflexivity.
  - repeat constructor.
  - reflexivity.
Defined.

(** Index 1 of two explicit paths is in range, index 2 is not. *)
Lemma index_in_and_out_of_range :
  at_index textures_resolver 1 = Some "/abs/shaders" ∧
  is_Some (remove textures_resolver 1) ∧
  at_index textures_resolver 2 = None ∧
  remove textures_resolver 2 = None.
Proof.
  destruct (index_contract textures_resolver 1) as [Hin _].
  destruct (index_contract textures_resolver 2) as [_ Hout].
  destruct (Hin (le_n 2)) as [_ Hremove].
  destruct (Hout (le_n 2)) as [Hat Hnone].
  split_and!; [reflexivity|exact Hremove|exact Hat|exact Hnone].
Defined.

(** Removing "/abs/shaders" from the explicit paths leaves it in
    CombinedPaths, and the lookups still go through it. *)
Lemma remove_shaders :
  1 < size textures_resolver ∧
  ∃ s', remove textures_resolver 1 = Some s' ∧
        m_explicit_paths s' = ["textures"] ∧
        m_all_paths s' = ["textures"; "/abs/shaders"] ∧
        probed (exist_probe (P:=demo_platform) s' "wood.png") =
          ["/abs/shaders/wood.png"; "/proj/textures/wood.png"; "/proj/wood.png"].
Proof.
  split; [exact (le_n 2)|].
  destruct (remove_frame (P:=demo_platform) textures_resolver 1 (le_n 2))
    as (s' & Hremove & Hexplicit & _ & _ & Hall & _ & Hexist & _).
  exists s'. split_and!; [exact Hremove|exact Hexplicit|exact Hall|].
  rewrite Hexist. reflexivity.
Defined.

(** When nothing exists, [exist] goes through the whole chain and ends on
    the target itself. *)
Example exist_nowhere :
  exist_probe (P:=demo_platform) textures_resolver "marble.png" =
    (["/abs/shaders/marble.png"; "/proj/textures/marble.png";
      "/proj/marble.png"; "marble.png"], false).
Proof. reflexivity. Qed.

(** The constructor on "/a:b::/c/d:" keeps "/a" and "/c/d". *)
Example create_from_env_example :
  create_from_env (P:=Posix.platform [("P", "/a:b::/c/d:")] []) "P" ":"%char =
    mkImpl EmptyString [] ["/a"; "/c/d"] ["/a"; "/c/d"].
Proof. reflexivity. Qed.

(** With the root "/proj" the serialisation of the scenario, both ways. *)
Example do_to_string_example :
  do_to_string (P:=demo_platform) textures_resolver ":"%char false =
    "/proj:/proj/textures:/abs/shaders" ∧
  do_to_string (P:=demo_platform) textures_resolver ":"%char true =
    "/abs/shaders:/proj/textures:/proj".
Proof. by vm_compute. Qed.

(** ** What every reachable state keeps *)

Section Invariants.
Context {P : Platform}.

Lemma run_reachable s c s' : reachable s → run s c = Some s' → reachable s'.
Proof.
  intros Hs. destruct c; simpl; try (intros [= <-]; by constructor).
  intros Hremove. by eapply reach_remove.
Qed.

(** X1.  In every reachable state the environment paths are absolute and
    not empty, CombinedPaths starts with the environment paths, and the
    explicit paths occur in what follows, in their order (with, after a
    [remove], paths between them that are explicit no more). *)
Theorem reachable_keeps_order (s : Impl) :
  reachable s →
  Forall (λ path, is_absolute path = true ∧ path ≠ EmptyString)
         (m_environment_paths s) ∧
  ∃ rest, m_all_paths s = m_environment_paths s ++ rest ∧
          m_explicit_paths s `sublist_of` rest.
Proof.
  induction 1 as [|envvar separator|s path _ IH|s _ _|s _ [IHenv _]
                 |s path _ (IHenv & rest & Hall & Hsub)
                 |s paths separator _ (IHenv & rest & Hall & Hsub)
                 |s i s' _ (IHenv & rest & Hall & Hsub) Hremove].
  - split; [constructor|]. exists []. split; [done|apply sublist_nil_l].
  - assert (Hexplicit : m_explicit_paths (create_from_env envvar separator) = []).
    { unfold create_from_env. destruct (getenv envvar) as [value|]; [|done].
      by rewrite fold_env_step_explicit. }
    split; [|exists []; rewrite Hexplicit; split; [|apply sublist_nil_l]].
    + unfold create_from_env. destruct (getenv envvar) as [value|]; [|constructor].
      rewrite fold_env_step_environment. simpl.
      apply List.Forall_forall. intros path [_ Hkept]%List.filter_In.
      unfold kept in Hkept. apply andb_prop in Hkept as [Habs Hne].
      split; [done|]. by intros ->.
    + rewrite app_nil_r. unfold create_from_env.
      destruct (getenv envvar) as [value|]; [|done].
      by rewrite fold_env_step_all, fold_env_step_environment.
  - exact IH.
  - split; [constructor|]. exists []. split; [done|apply sublist_nil_l].
  - split; [exact IHenv|]. exists []. simpl. rewrite app_nil_r.
    split; [done|apply sublist_nil_l].
  - split; [exact IHenv|]. exists (rest ++ [path]). simpl. split.
    + by rewrite Hall, app_assoc.
    + by apply sublist_app.
  - unfold split_and_push_back. rewrite fold_push_back. simpl.
    split; [exact IHenv|]. exists (rest ++ Util.split paths separator). split.
    + by rewrite Hall, app_assoc.
    + by apply sublist_app.
  - unfold remove in Hremove. case_decide; [|done]. injection Hremove as <-.
    simpl. split; [exact IHenv|]. exists rest. split; [done|].
    etrans; [apply sublist_delete|done].
Qed.

(** The environment paths of a reachable state: kept by the constructor,
    and at the head of CombinedPaths. *)
Lemma reachable_environment (s : Impl) :
  reachable s →
  Forall (λ path, kept path = true) (m_environment_paths s) ∧
  m_environment_paths s `prefix_of` m_all_paths s.
Proof.
  induction 1 as [|envvar separator|s path _ IH|s _ _|s _ [IHenv _]
                 |s path _ [IHenv IHpre]|s paths separator _ [IHenv IHpre]
                 |s i s' _ IH Hremove].
  - split; [constructor|done].
  - unfold create_from_env. destruct (getenv envvar) as [value|];
      [|split; [constructor|done]].
    rewrite fold_env_step_environment, fold_env_step_all. simpl. split; [|done].
    apply List.Forall_forall. by intros path [_ Hkept]%List.filter_In.
  - exact IH.
  - split; [constructor|done].
  - split; [exact IHenv|done].
  - split; [exact IHenv|]. simpl. by apply prefix_app_r.
  - unfold split_and_push_back. rewrite fold_push_back. simpl.
    split; [exact IHenv|]. by apply prefix_app_r.
  - unfold remove in Hremove. case_decide; [|done]. by injection Hremove as <-.
Qed.

(** X20.  In every reachable state an environment path is an entry of
    CombinedPaths that no root changes: the lookups test the target right
    under it, and the serialisation gives it as it is. *)
Theorem environment_paths_verbatim (s : Impl) (d : string) :
  reachable s → d ∈ m_environment_paths s →
  d ∈ m_all_paths s ∧
  (∀ filepath, candidate s filepath d = d // filepath) ∧
  resolved s d = Some d.
Proof.
  intros [Henv [rest Hall]]%reachable_environment Hd.
  rewrite Forall_forall in Henv. specialize (Henv d Hd).
  unfold kept in Henv. apply andb_prop in Henv as [Habs _].
  split_and!.
  - rewrite Hall. apply elem_of_app. by left.
  - intros filepath. unfold candidate, anchored, is_relative.
    by rewrite Habs, andb_false_r.
  - unfold resolved, is_relative. by rewrite Habs.
Qed.

(** X2.  A sequence of calls without [remove], from a state where
    CombinedPaths is EnvironmentPaths ++ ExplicitPaths, runs through and
    ends in such a state. *)
Theorem run_all_combined (s : Impl) (cs : list call) :
  combined s → Forall (λ c, is_remove c = false) cs →
  ∃ s', run_all s cs = Some s' ∧ combined s'.
Proof.
  intros Hs Hcs. revert s Hs.
  induction Hcs as [|c cs Hc _ IH]; intros s Hs; simpl; [by exists s|].
  destruct c; simpl in *; try done; apply IH.
  - by apply combined_set_root_path.
  - apply combined_clear.
  - apply combined_reset.
  - by apply combined_push_back.
  - by apply combined_split_and_push_back.
Qed.

Lemma run_on_explicit_paths s c s' :
  on_explicit_paths c = true → run s c = Some s' →
  m_root_path s' = m_root_path s ∧
  m_environment_paths s' = m_environment_paths s.
Proof.
  destruct c; simpl; try done; intros _.
  - by intros [= <-].
  - unfold split_and_push_back. rewrite fold_push_back. by intros [= <-].
  - unfold remove. case_decide; [|done]. by intros [= <-].
Qed.

(** X3.  [reset] forgets every [push_back], [split_and_push_back] and
    [remove]: after any run of such calls it gives the state that it gives
    before them, in which CombinedPaths is EnvironmentPaths again. *)
Theorem reset_forgets_explicit_calls (s : Impl) (cs : list call) (s' : Impl) :
  Forall (λ c, on_explicit_paths c = true) cs →
  run_all s cs = Some s' →
  reset s' = reset s ∧
  m_all_paths (reset s') = m_environment_paths s ∧
  combined (reset s').
Proof.
  intros Hcs. revert s.
  induction Hcs as [|c cs Hc _ IH]; intros s; simpl.
  - intros [= <-]. split_and!; [done..|apply combined_reset].
  - destruct (run s c) as [s1|] eqn:Hrun; [|done]. intros Hrest.
    destruct (run_on_explicit_paths s c s1 Hc Hrun) as [Hroot Henv].
    destruct (IH s1 Hrest) as (Hreset & Hall & Hcombined).
    split_and!; [|by rewrite <- Henv|done].
    rewrite Hreset. unfold reset. by rewrite Hroot, Henv.
Qed.

Lemma at_index_lookup s j : at_index s j = m_explicit_paths s !! j.
Proof.
  unfold at_index, size. case_decide as Hj; [done|].
  symmetry. apply lookup_ge_None. lia.
Qed.

(** X4.  [remove] at [i] shortens ExplicitPaths by one: the entries below
    [i] keep their index, the entries above come down by one. *)
Theorem remove_shifts_indices (s : Impl) (i : nat) (s' : Impl) :
  remove s i = Some s' →
  size s' = size s - 1 ∧
  ∀ j, at_index s' j = if decide (j < i) then at_index s j else at_index s (S j).
Proof.
  unfold remove. case_decide as Hi; [|done]. intros [= <-]. split.
  - unfold size. simpl. apply length_delete. by apply lookup_lt_is_Some_2.
  - intros j. rewrite !at_index_lookup. simpl. case_decide as Hj.
    + by apply list_lookup_delete_lt.
    + apply list_lookup_delete_ge. lia.
Qed.

(** X5.  [push_back] puts the path at the index [size]: it is read back
    there, the entries before it stay where they were, and the resolver is
    not empty afterwards. *)
Theorem push_back_at_index (s : Impl) (path : string) :
  size (push_back s path) = S (size s) ∧
  empty (push_back s path) = false ∧
  at_index (push_back s path) (size s) = Some path ∧
  (∀ j, j < size s → at_index (push_back s path) j = at_index s j) ∧
  (∀ j, size s < j → at_index (push_back s path) j = None).
Proof.
  unfold size. split_and!.
  - simpl. rewrite length_app. simpl. lia.
  - unfold empty. simpl. by destruct (m_explicit_paths s).
  - rewrite at_index_lookup. simpl. by rewrite list_lookup_middle.
  - intros j Hj. rewrite !at_index_lookup. simpl. by apply lookup_app_l.
  - intros j Hj. rewrite at_index_lookup. simpl. apply lookup_ge_None.
    rewrite length_app. simpl. lia.
Qed.

End Invariants.

(** ** More on the lookups *)

Section LookupFacts.
Context {P : Platform}.

Lemma walk_answer l : answer (walk l) = existsb fs_exists l.
Proof.
  induction l as [|p l IH]; simpl; [done|].
  destruct (fs_exists p); simpl; [done|exact IH].
Qed.

Lemma walk_prefix l : probed (walk l) `prefix_of` l.
Proof.
  induction l as [|p l IH]; simpl; [done|].
  destruct (fs_exists p); simpl.
  - by exists l.
  - by apply (prefix_app [p]).
Qed.

Lemma walk_not_nil p l : 1 ≤ length (probed (walk (p :: l))).
Proof. simpl. destruct (fs_exists p); simpl; lia. Qed.

Lemma search_chain_length s fp :
  length (search_chain s fp) ≤ length (m_all_paths s) + 1.
Proof.
  unfold search_chain. rewrite length_app, length_map, length_rev.
  destruct (has_root_path s); simpl; lia.
Qed.

Lemma existsb_elem_of (f : string → bool) l :
  existsb f l = true ↔ ∃ p, p ∈ l ∧ f p = true.
Proof.
  rewrite existsb_exists. split; intros (p & Hp & Hf); exists p;
    (split; [by apply list_elem_of_In|done]).
Qed.

(** X6.  [exist] answers [true] exactly when one of the paths it may test
    exists: the target alone when it is absolute, else a path of the search
    chain or the target. *)
Theorem exist_true_iff (s : Impl) (filepath : string) :
  exist s filepath = true ↔
  ∃ p, p ∈ (if is_absolute filepath then [filepath]
            else search_chain s filepath ++ [filepath]) ∧
       fs_exists p = true.
Proof.
  destruct (is_absolute filepath) eqn:Habs.
  - unfold exist, exist_probe. rewrite Habs. simpl. split.
    + intros Hex. exists filepath. split; [by apply list_elem_of_singleton|done].
    + by intros (p & ->%list_elem_of_singleton & Hp).
  - unfold exist. rewrite (exist_probe_walk s filepath Habs), walk_answer.
    apply existsb_elem_of.
Qed.

Lemma qualify_loop_inv s fp it ps q :
  qualify_loop s fp it = (ps, Some q) →
  ∃ before d after,
    it = before ++ d :: after ∧
    Forall (λ j, missing (candidate s fp j)) before ∧
    fs_exists (candidate s fp d) = true ∧
    q = mkQualified (make_preferred (candidate s fp d)) (Some d).
Proof.
  revert ps. induction it as [|i it IH]; intros ps; simpl; [done|].
  unfold probe_bind, bf_exists. simpl.
  destruct (fs_exists (anchored s i // fp)) eqn:Hi; simpl.
  - intros [= _ <-]. by exists [], i, it.
  - destruct (qualify_loop s fp it) as [ps' r] eqn:Hloop. simpl.
    intros [= _ ->].
    destruct (IH ps' eq_refl) as (before & d & after & -> & Hbefore & Hd & Hq).
    exists (i :: before), d, after. split_and!; [done| |done..].
    by constructor.
Qed.

(** X7.  When [do_qualify] names a search path, that path is an entry of
    CombinedPaths, every entry appended after it has no such file, the file
    exists under it (anchored under the root if it is relative and a root is
    set), and the qualified path is that file's path, made preferred; the
    target was relative, and [exist] answers [true] for it. *)
Theorem do_qualify_search_path_inv (s : Impl) (filepath d : string) :
  search_path (do_qualify s filepath) = Some d →
  is_absolute filepath = false ∧
  exist s filepath = true ∧
  fs_exists (candidate s filepath d) = true ∧
  qualified_filepath (do_qualify s filepath) =
    make_preferred (candidate s filepath d) ∧
  ∃ before after,
    rev (m_all_paths s) = before ++ d :: after ∧
    Forall (λ j, missing (candidate s filepath j)) before.
Proof.
  intros Hd.
  assert (Hexist : exist s filepath = true).
  { destruct (same_walk s filepath) as [[_ Hex]|[_ Hq]]; [done|].
    by rewrite Hq in Hd. }
  revert Hd. unfold do_qualify, do_qualify_probe.
  destruct (is_absolute filepath); simpl; [done|].
  destruct (qualify_loop s filepath (rev (m_all_paths s))) as [ps [q|]] eqn:Hloop.
  - destruct (qualify_loop_inv _ _ _ _ _ Hloop)
      as (before & d' & after & Hrev & Hbefore & Hhit & ->).
    unfold probe_bind, answer. simpl. intros [= <-].
    split_and!; [done..|]. by exists before, after.
  - unfold probe_bind, answer, qualify_root, bf_exists. simpl.
    destruct (has_root_path s); simpl; [|done].
    by destruct (fs_exists (m_root_path s // filepath)).
Qed.

Lemma search_chain_push_back s d fp :
  search_chain (push_back s d) fp = candidate s fp d :: search_chain s fp.
Proof. unfold search_chain. simpl. by rewrite rev_unit. Qed.

(** X8.  A path appended with [push_back] adds one way for [exist] to
    answer [true] and takes none away: a file found before is found
    after. *)
Theorem exist_push_back (s : Impl) (d filepath : string) :
  exist (push_back s d) filepath =
    (negb (is_absolute filepath) && fs_exists (candidate s filepath d))
    || exist s filepath ∧
  (exist s filepath = true → exist (push_back s d) filepath = true).
Proof.
  assert (Heq : exist (push_back s d) filepath =
    (negb (is_absolute filepath) && fs_exists (candidate s filepath d))
    || exist s filepath).
  { unfold exist. destruct (is_absolute filepath) eqn:Habs.
    - unfold exist_probe. by rewrite Habs.
    - rewrite !(exist_probe_walk _ filepath Habs), !walk_answer.
      by rewrite search_chain_push_back. }
  split; [done|]. intros Hex. rewrite Heq, Hex. apply orb_true_r.
Qed.

(** X9.  The newest path is tried first.  For a relative target, when the
    file exists under the path just appended, [do_qualify] asks the disk
    once and answers with that path; when it does not, [do_qualify] goes on
    as it did before the [push_back] and gives the same answer. *)
Theorem do_qualify_push_back (s : Impl) (d filepath : string) :
  is_absolute filepath = false →
  (fs_exists (candidate s filepath d) = true →
     do_qualify_probe (push_back s d) filepath =
       ([candidate s filepath d],
        mkQualified (make_preferred (candidate s filepath d)) (Some d))) ∧
  (fs_exists (candidate s filepath d) = false →
     do_qualify_probe (push_back s d) filepath =
       (candidate s filepath d :: probed (do_qualify_probe s filepath),
        do_qualify s filepath)).
Proof.
  intros Hrel. unfold do_qualify, do_qualify_probe. rewrite Hrel. simpl.
  rewrite rev_unit. simpl.
  rewrite (qualify_loop_root (push_back s d) s filepath _ eq_refl).
  unfold probe_bind, bf_exists, candidate, probed, answer. simpl.
  change (anchored (push_back s d) d) with (anchored s d).
  change (qualify_root (push_back s d) filepath) with (qualify_root s filepath).
  split; intros ->; simpl; [done|].
  by destruct (qualify_loop s filepath (rev (m_all_paths s))) as [ps [q|]].
Qed.

Lemma do_qualify_probe_walk s fp :
  is_absolute fp = false →
  probed (do_qualify_probe s fp) = probed (walk (search_chain s fp)).
Proof.
  intros Hrel. unfold do_qualify_probe, search_chain. rewrite Hrel. simpl.
  rewrite walk_app.
  destruct (qualify_loop_walk s fp (rev (m_all_paths s))) as [Hp Ha].
  unfold probe_bind, probed, answer in *. rewrite <- Hp, Ha.
  destruct (qualify_loop s fp (rev (m_all_paths s))) as [ps [q|]]; simpl.
  - by rewrite app_nil_r.
  - unfold qualify_root, bf_exists, probe_bind.
    destruct (has_root_path s); simpl; [|done].
    by destruct (fs_exists (m_root_path s // fp)).
Qed.

(** X10.  The lookups ask the disk a bounded number of times: [exist] at
    least once and at most once per entry of CombinedPaths, once for the
    root and once for the target; [do_qualify] at most once per entry and
    once for the root, and never more often than [exist]; for an absolute
    target [exist] asks once and [do_qualify] not at all. *)
Theorem probe_count (s : Impl) (filepath : string) :
  1 ≤ length (probed (exist_probe s filepath)) ∧
  length (probed (exist_probe s filepath)) ≤ length (m_all_paths s) + 2 ∧
  length (probed (do_qualify_probe s filepath)) ≤ length (m_all_paths s) + 1 ∧
  length (probed (do_qualify_probe s filepath)) ≤
    length (probed (exist_probe s filepath)) ∧
  (is_absolute filepath = true →
     probed (exist_probe s filepath) = [filepath] ∧
     probed (do_qualify_probe s filepath) = []).
Proof.
  pose proof (search_chain_length s filepath) as Hchain.
  destruct (is_absolute filepath) eqn:Habs.
  - unfold exist_probe, do_qualify_probe. rewrite Habs. simpl.
    split_and!; [lia..|done].
  - assert (Hq : length (probed (do_qualify_probe s filepath)) ≤
                 length (search_chain s filepath)).
    { rewrite (do_qualify_probe_walk s filepath Habs).
      apply prefix_length, walk_prefix. }
    assert (Hle : length (probed (do_qualify_probe s filepath)) ≤
                  length (probed (exist_probe s filepath))).
    { destruct (same_walk s filepath) as [[-> _]|[-> _]]; [done|].
      rewrite length_app. lia. }
    assert (He : length (probed (exist_probe s filepath)) ≤
                 length (search_chain s filepath) + 1).
    { rewrite (exist_probe_walk s filepath Habs).
      etrans; [apply prefix_length, walk_prefix|].
      rewrite length_app. simpl. lia. }
    assert (H1 : 1 ≤ length (probed (exist_probe s filepath))).
    { rewrite (exist_probe_walk s filepath Habs).
      destruct (search_chain s filepath ++ [filepath]) as [|p l] eqn:Hl.
      - by destruct (search_chain s filepath).
      - apply walk_not_nil. }
    split_and!; [lia..|done].
Qed.

(** X11.  After [clear] the resolver is as new: no root, no path, [exist]
    tests the target alone, [do_qualify] returns the target without asking
    the disk, and the serialisation is the empty string. *)
Theorem clear_as_new (s : Impl) (filepath : string)
    (separator : ascii) (reversed : bool) :
  clear s = create ∧
  has_root_path (clear s) = false ∧
  empty (clear s) = true ∧
  size (clear s) = 0 ∧
  exist_probe (clear s) filepath = ([filepath], fs_exists filepath) ∧
  do_qualify_probe (clear s) filepath = ([], mkQualified filepath None) ∧
  do_to_string (clear s) separator reversed = EmptyString.
Proof.
  split_and!; try done.
  - unfold exist_probe. by destruct (is_absolute filepath).
  - unfold do_qualify_probe. by destruct (is_absolute filepath).
  - by destruct reversed.
Qed.

End LookupFacts.

(** ** More on the serialisation *)

Section SerialisationFacts.
Context {P : Platform} {L : PlatformLaws P}.



End SerialisationFacts.

(** The scenario, serialised in reverse: the effective order backwards. *)
Lemma do_to_string_textures :
  do_to_string (P:=demo_platform) textures_resolver ":"%char true =
    Util.join ":"%char (rev (effective_paths (P:=demo_platform) textures_resolver)).
Proof.
  apply (do_to_string_effective (L:=posix_laws _ _) textures_resolver ":"%char true).
  right. reflexivity.
Defined.


(** ** Copies, assignment and swap *)

Section Handles.

Lemma new_block_fresh w : blocks w !! new_block w = None.
Proof. unfold new_block. apply not_elem_of_dom. apply is_fresh. Qed.

Lemma new_object_fresh w : impl_of w !! fresh (dom (impl_of w)) = None.
Proof. apply not_elem_of_dom. apply is_fresh. Qed.

Lemma state_of_Some w o v :
  state_of w o = Some v ↔ ∃ l, impl_of w !! o = Some l ∧ blocks w !! l = Some v.
Proof.
  unfold state_of. destruct (impl_of w !! o) as [l|].
  - split; [by exists l|]. by intros (? & [= <-] & ?).
  - split; [done|]. by intros (? & ? & _).
Qed.

Ltac map_cases :=
  rewrite ?lookup_delete, ?lookup_insert; repeat case_decide; subst;
  simplify_eq; eauto.

(** What [operator=] leaves behind: the object points to the new block, the
    block it pointed to is freed. *)
Lemma assign_Some w this other l v :
  impl_of w !! this = Some l → state_of w other = Some v →
  assign w this other =
    Some (mkWorld (<[this := new_block w]> (impl_of w))
                  (delete l (<[new_block w := v]> (blocks w)))).
Proof.
  intros Hthis Hother. unfold assign, copy_construct. rewrite Hother.
  pose proof (new_object_fresh w) as Htmp.
  set (tmp := fresh (dom (impl_of w))) in *.
  assert (Hne : this ≠ tmp) by (intros ->; congruence).
  unfold swap, destroy. simpl.
  rewrite lookup_insert_ne, Hthis, lookup_insert_eq by done. simpl.
  rewrite lookup_insert_ne, lookup_insert_eq by done. f_equal. f_equal.
  rewrite delete_insert_ne, insert_insert_eq, delete_insert_eq by done.
  by rewrite delete_id.
Qed.

(** X14.  Assignment is a deep copy and frees what it replaces.  In a world
    where no two objects share a block and every block has an owner,
    [this = other] leaves such a world, in which [this] holds what [other]
    held, on a block of its own, and every other object holds what it held,
    [other] itself included also when it is [this]. *)
Theorem assign_copies (w : World) (this other : nat) (v : Impl) :
  owned w → is_Some (impl_of w !! this) → state_of w other = Some v →
  ∃ w', assign w this other = Some w' ∧
        owned w' ∧
        state_of w' this = Some v ∧
        (∀ o, o ≠ this → state_of w' o = state_of w o) ∧
        dom (impl_of w') = dom (impl_of w).
Proof.
  intros (Hlive & Hinj & Hown) [l Hthis] Hother.
  rewrite (assign_Some w this other l v Hthis Hother).
  pose proof (new_block_fresh w) as Hfresh.
  set (n := new_block w) in *.
  assert (Hnl : n ≠ l).
  { intros ->. destruct (Hlive this l Hthis) as [? ?]. congruence. }
  assert (Hold : ∀ o k, impl_of w !! o = Some k → k ≠ n).
  { intros o k Ho ->. destruct (Hlive o n Ho) as [? ?]. congruence. }
  eexists. split; [reflexivity|]. split_and!.
  - split_and!; simpl.
    + intros o k. rewrite lookup_insert. case_decide as Ho.
      * intros [= <-]. map_cases.
      * intros Hk. assert (l ≠ k) by (intros ->; apply Ho; eauto).
        assert (n ≠ k) by (intros ->; by eapply Hold).
        map_cases.
    + intros o o' k. rewrite !lookup_insert.
      repeat case_decide; subst; intros ??; simplify_eq; eauto.
      all: exfalso; by eapply Hold.
    + intros k. rewrite lookup_delete. case_decide as Hk; [by intros [? ?]|].
      rewrite lookup_insert. case_decide as Hk'.
      * subst. intros _. exists this. by rewrite lookup_insert_eq.
      * intros [o Ho]%Hown. exists o. rewrite lookup_insert_ne; [done|].
        intros ->. congruence.
  - unfold state_of. simpl. rewrite lookup_insert_eq. map_cases.
  - intros o Ho. unfold state_of. simpl. rewrite lookup_insert_ne by done.
    destruct (impl_of w !! o) as [k|] eqn:Hk; [|done].
    assert (l ≠ k) by (intros ->; apply Ho; eauto).
    assert (n ≠ k) by (intros ->; by eapply Hold).
    map_cases.
  - simpl. apply dom_insert_lookup_L. by eexists.
Qed.

(** X15.  [swap] exchanges what two objects hold and touches nothing
    else, no block is copied or freed, and swapping back restores the
    world. *)
Theorem swap_exchanges (w : World) (this other : nat) (v v' : Impl) :
  owned w → state_of w this = Some v → state_of w other = Some v' →
  ∃ w', swap w this other = Some w' ∧
        owned w' ∧
        state_of w' this = Some v' ∧
        state_of w' other = Some v ∧
        (∀ o, o ≠ this → o ≠ other → state_of w' o = state_of w o) ∧
        blocks w' = blocks w ∧
        swap w' this other = Some w.
Proof.
  intros (Hlive & Hinj & Hown)
    (l & Hthis & Hv)%state_of_Some (l' & Hother & Hv')%state_of_Some.
  unfold swap at 1. rewrite Hthis, Hother.
  eexists. split; [reflexivity|]. split_and!.
  - split_and!; simpl.
    + intros o k. rewrite !lookup_insert.
      repeat case_decide; subst; intros ?; simplify_eq; eauto.
    + intros o o' k. rewrite !lookup_insert.
      repeat case_decide; subst; intros ??; simplify_eq; eauto.
      all: exfalso; eauto.
    + intros k [o Ho]%Hown.
      destruct (decide (o = this)) as [->|Hne]; [|destruct (decide (o = other)) as [->|Hne']].
      * exists other. map_cases; congruence.
      * exists this. map_cases; congruence.
      * exists o. by rewrite !lookup_insert_ne.
  - unfold state_of. simpl. by rewrite lookup_insert_eq.
  - unfold state_of. simpl. map_cases; congruence.
  - intros o Ho Ho'. unfold state_of. simpl. by rewrite !lookup_insert_ne.
  - done.
  - unfold swap. simpl. rewrite lookup_insert_eq.
    assert (<[this:=l']> (<[other:=l]> (impl_of w)) !! other = Some l) as ->.
    { map_cases; congruence. }
    f_equal. destruct w as [impl blk]. simpl in *. f_equal.
    apply map_eq. intros o. rewrite !lookup_insert.
    repeat case_decide; subst; congruence.
Qed.

Lemma owned_insert_fresh w o v :
  owned w → impl_of w !! o = None →
  owned (mkWorld (<[o := new_block w]> (impl_of w))
                 (<[new_block w := v]> (blocks w))).
Proof.
  intros (Hlive & Hinj & Hown) Ho.
  pose proof (new_block_fresh w) as Hfresh.
  set (n := new_block w) in *.
  assert (Hold : ∀ o' k', impl_of w !! o' = Some k' → n ≠ k').
  { intros o' k' Ho' <-. destruct (Hlive o' n Ho') as [? ?]. congruence. }
  split_and!; simpl.
  - intros o' k'. rewrite lookup_insert. case_decide.
    + intros [= <-]. rewrite lookup_insert_eq. by eexists.
    + intros Hk'. rewrite lookup_insert_ne by eauto. eauto.
  - intros o1 o2 k'. rewrite !lookup_insert.
    repeat case_decide; subst; intros ??; simplify_eq; eauto.
    all: exfalso; eapply Hold; eauto.
  - intros k'. rewrite lookup_insert. case_decide.
    + subst. intros _. exists o. by rewrite lookup_insert_eq.
    + intros [o' Ho']%Hown. exists o'. rewrite lookup_insert_ne; [done|].
      intros ->. congruence.
Qed.

Lemma state_of_insert_fresh w o v o' :
  owned w → o' ≠ o →
  state_of (mkWorld (<[o := new_block w]> (impl_of w))
                    (<[new_block w := v]> (blocks w))) o' = state_of w o'.
Proof.
  intros (Hlive & _ & _) Hne. unfold state_of. simpl.
  rewrite lookup_insert_ne by done.
  destruct (impl_of w !! o') as [k|] eqn:Hk; [|done].
  rewrite lookup_insert_ne; [done|]. intros <-.
  destruct (Hlive o' _ Hk) as [? Hlive']. by rewrite new_block_fresh in Hlive'.
Qed.

Lemma owned_update w l v :
  owned w → is_Some (blocks w !! l) →
  owned (mkWorld (impl_of w) (<[l := v]> (blocks w))).
Proof.
  intros (Hlive & Hinj & Hown) Hl. split_and!; simpl.
  - intros o k Hk. rewrite lookup_insert. case_decide; [by eexists|eauto].
  - exact Hinj.
  - intros k. rewrite lookup_insert. case_decide; [subst; eauto|eauto].
Qed.

(** X16.  A copy stands on a block of its own: after the copy constructor
    the new object holds what the other holds, and a mutator called on the
    copy changes the copy and leaves the other as it was. *)
Theorem copy_is_independent
    (w : World) (o other : nat) (v : Impl) (f : Impl → Impl) :
  owned w → impl_of w !! o = None → state_of w other = Some v →
  ∃ w1 w2, copy_construct w o other = Some w1 ∧
           owned w1 ∧
           state_of w1 o = Some v ∧
           state_of w1 other = Some v ∧
           update w1 o f = Some w2 ∧
           owned w2 ∧
           state_of w2 o = Some (f v) ∧
           state_of w2 other = Some v.
Proof.
  intros Howned Ho Hother.
  assert (Hne : other ≠ o).
  { intros ->. apply state_of_Some in Hother as (? & ? & _). congruence. }
  pose proof (owned_insert_fresh w o v Howned Ho) as Howned1.
  pose proof (state_of_insert_fresh w o v other Howned Hne) as Hother1.
  rewrite Hother in Hother1.
  unfold copy_construct. rewrite Hother.
  set (w1 := mkWorld _ _) in *.
  assert (Ho1 : impl_of w1 !! o = Some (new_block w)) by apply lookup_insert_eq.
  assert (Hv1 : blocks w1 !! new_block w = Some v) by apply lookup_insert_eq.
  exists w1. eexists. split; [reflexivity|]. split; [exact Howned1|].
  split; [by apply state_of_Some; eauto|]. split; [exact Hother1|].
  unfold update. rewrite Ho1, Hv1. split; [reflexivity|].
  split; [by apply owned_update|].
  split.
  - unfold state_of. simpl. by rewrite lookup_insert_eq, lookup_insert_eq.
  - apply state_of_Some in Hother1 as (k & Hk & Hkv).
    apply state_of_Some. exists k. simpl. split; [done|].
    rewrite lookup_insert_ne; [done|]. intros Heq.
    destruct Howned1 as (_ & Hinj1 & _). apply Hne.
    apply (Hinj1 other o k); [done|by rewrite <- Heq].
Qed.

(** X17.  Construction and destruction cancel: the constructor gives the
    new object an empty resolver on a fresh block, and destroying the
    object frees the block and gives the world back as it was. *)
Theorem construct_destroy (w : World) (o : nat) :
  owned w → impl_of w !! o = None →
  owned (construct w o) ∧
  state_of (construct w o) o = Some create ∧
  (∀ o', o' ≠ o → state_of (construct w o) o' = state_of w o') ∧
  destroy (construct w o) o = Some w.
Proof.
  intros Howned Ho. unfold construct. split_and!.
  - by apply owned_insert_fresh.
  - unfold state_of. simpl. by rewrite !lookup_insert_eq.
  - intros o' Hne. by apply state_of_insert_fresh.
  - unfold destroy. simpl. rewrite lookup_insert_eq.
    rewrite !delete_insert_eq, !delete_id by (done || apply new_block_fresh).
    by destruct w.
Qed.

End Handles.

(** ** The further facts at work *)

(** After the [remove] of "B" from the layered resolver, "/A" heads
    CombinedPaths and "C" occurs in the rest, where "B" still is. *)
Lemma removed_keeps_order :
  Forall (λ path, @is_absolute demo_platform path = true ∧ path ≠ EmptyString)
         (m_environment_paths (mkImpl EmptyString ["C"] ["/A"] ["/A"; "B"; "C"])) ∧
  ∃ rest,
    m_all_paths (mkImpl EmptyString ["C"] ["/A"] ["/A"; "B"; "C"]) =
      m_environment_paths (mkImpl EmptyString ["C"] ["/A"] ["/A"; "B"; "C"]) ++ rest ∧
    m_explicit_paths (mkImpl EmptyString ["C"] ["/A"] ["/A"; "B"; "C"])
      `sublist_of` rest.
Proof.
  apply (reachable_keeps_order (P:=demo_platform)).
  apply (reach_remove layered_resolver 0); [|reflexivity].
  unfold layered_resolver. apply reach_push_back, reach_push_back.
  apply reach_create_from_env.
Defined.

(** The environment path "/A" of the layered resolver. *)
Lemma layered_environment_verbatim :
  "/A" ∈ m_all_paths layered_resolver ∧
  (∀ filepath,
     candidate (P:=demo_platform) layered_resolver filepath "/A" =
       @path_append demo_platform "/A" filepath) ∧
  resolved (P:=demo_platform) layered_resolver "/A" = Some "/A".
Proof.
  apply (environment_paths_verbatim (P:=demo_platform) layered_resolver "/A").
  - unfold layered_resolver. apply reach_push_back, reach_push_back.
    apply reach_create_from_env.
  - apply list_elem_of_here.
Defined.

(** A run of calls without [remove], from the empty resolver. *)
Lemma run_without_remove :
  ∃ s', run_all (P:=demo_platform) create
          [SetRootPath "/proj"; PushBack "textures";
           SplitAndPushBack "a:b" ":"%char; Reset; PushBack "x"] = Some s' ∧
        combined s'.
Proof.
  apply (run_all_combined (P:=demo_platform)); [reflexivity|].
  repeat constructor.
Defined.

(** Two [push_back] and a [remove], then [reset]. *)
Lemma reset_after_remove :
  reset (mkImpl EmptyString ["b"] [] ["a"; "b"]) = reset create ∧
  m_all_paths (reset (mkImpl EmptyString ["b"] [] ["a"; "b"])) =
    m_environment_paths create ∧
  combined (reset (mkImpl EmptyString ["b"] [] ["a"; "b"])).
Proof.
  apply (reset_forgets_explicit_calls (P:=demo_platform) create
           [PushBack "a"; PushBack "b"; Remove 0]); [|reflexivity].
  repeat constructor.
Defined.

(** The [remove] of "textures" brings "/abs/shaders" down to index 0. *)
Lemma remove_textures :
  size (mkImpl "/proj" ["/abs/shaders"] [] ["textures"; "/abs/shaders"]) =
    size textures_resolver - 1 ∧
  ∀ j, at_index (mkImpl "/proj" ["/abs/shaders"] [] ["textures"; "/abs/shaders"]) j =
         if decide (j < 0) then at_index textures_resolver j
         else at_index textures_resolver (S j).
Proof. apply (remove_shifts_indices textures_resolver 0). reflexivity. Defined.

(** The search path "/A" that [do_qualify] names for "f". *)
Lemma qualify_layered_inv :
  @is_absolute demo_platform "f" = false ∧
  exist (P:=demo_platform) layered_resolver "f" = true ∧
  @fs_exists demo_platform
    (candidate (P:=demo_platform) layered_resolver "f" "/A") = true ∧
  qualified_filepath (do_qualify (P:=demo_platform) layered_resolver "f") =
    @make_preferred demo_platform
      (candidate (P:=demo_platform) layered_resolver "f" "/A") ∧
  ∃ before after,
    rev (m_all_paths layered_resolver) = before ++ "/A" :: after ∧
    Forall (λ j, missing (P:=demo_platform)
                   (candidate (P:=demo_platform) layered_resolver "f" j)) before.
Proof.
  apply (do_qualify_search_path_inv (P:=demo_platform) layered_resolver "f" "/A").
  reflexivity.
Defined.

(** "/A", just appended, holds "f": one question to the disk. *)
Lemma qualify_newest :
  do_qualify_probe (P:=demo_platform) (push_back create "/A") "f" =
    (["/A/f"], mkQualified "/A/f" (Some "/A")).
Proof.
  destruct (do_qualify_push_back (P:=demo_platform) create "/A" "f" eq_refl)
    as [Hhit _].
  exact (Hhit eq_refl).
Defined.

Lemma two_objects_owned : owned two_objects.
Proof.
  unfold owned, two_objects. simpl. split_and!.
  - intros o l [[<- <-]|[_ [<- <-]%lookup_singleton_Some]]%lookup_insert_Some;
      by eexists.
  - intros o o' l
      [[<- <-]|[_ [<- <-]%lookup_singleton_Some]]%lookup_insert_Some
      [[<- ?]|[_ [<- ?]%lookup_singleton_Some]]%lookup_insert_Some; done.
  - intros l [v [[<- _]|[_ [<- _]%lookup_singleton_Some]]%lookup_insert_Some].
    + by exists 0.
    + by exists 1.
Qed.

(** Object 0 assigned from object 1, and from itself. *)
Lemma assign_two_objects :
  (∃ w', assign two_objects 0 1 = Some w' ∧
         owned w' ∧
         state_of w' 0 = Some (push_back create "b") ∧
         (∀ o, o ≠ 0 → state_of w' o = state_of two_objects o) ∧
         dom (impl_of w') = dom (impl_of two_objects)) ∧
  (∃ w', assign two_objects 0 0 = Some w' ∧
         owned w' ∧
         state_of w' 0 = Some (push_back create "a") ∧
         (∀ o, o ≠ 0 → state_of w' o = state_of two_objects o) ∧
         dom (impl_of w') = dom (impl_of two_objects)).
Proof.
  split.
  - apply (assign_copies two_objects 0 1);
      [apply two_objects_owned|by eexists|reflexivity].
  - apply (assign_copies two_objects 0 0);
      [apply two_objects_owned|by eexists|reflexivity].
Defined.

Lemma swap_two_objects :
  ∃ w', swap two_objects 0 1 = Some w' ∧
        owned w' ∧
        state_of w' 0 = Some (push_back create "b") ∧
        state_of w' 1 = Some (push_back create "a") ∧
        (∀ o, o ≠ 0 → o ≠ 1 → state_of w' o = state_of two_objects o) ∧
        blocks w' = blocks two_objects ∧
        swap w' 0 1 = Some two_objects.
Proof.
  apply (swap_exchanges two_objects 0 1);
    [apply two_objects_owned|reflexivity|reflexivity].
Defined.

(** Object 2 copied from object 0, then "c" appended to the copy. *)
Lemma copy_two_objects :
  ∃ w1 w2, copy_construct two_objects 2 0 = Some w1 ∧
           owned w1 ∧
           state_of w1 2 = Some (push_back create "a") ∧
           state_of w1 0 = Some (push_back create "a") ∧
           update w1 2 (λ s, push_back s "c") = Some w2 ∧
           owned w2 ∧
           state_of w2 2 = Some (push_back (push_back create "a") "c") ∧
           state_of w2 0 = Some (push_back create "a").
Proof.
  apply (copy_is_independent two_objects 2 0 (push_back create "a")
           (λ s, push_back s "c"));
    [apply two_objects_owned|reflexivity|reflexivity].
Defined.

Lemma construct_destroy_two_objects :
  owned (construct two_objects 2) ∧
  state_of (construct two_objects 2) 2 = Some create ∧
  (∀ o', o' ≠ 2 → state_of (construct two_objects 2) o' = state_of two_objects o') ∧
  destroy (construct two_objects 2) 2 = Some two_objects.
Proof.
  apply (construct_destroy two_objects 2); [apply two_objects_owned|reflexivity].
Defined.

End SearchPaths.

(** ** The shading modes of the diagnostic surface shader *)

Section ShadingModes.
Import DiagnosticSurfaceShader.

(** X18.  The two tables agree: they list the same mode strings in the
    same order, no mode string occurs twice, no mode and no readable name
    occurs twice, and every shading mode has its entry. *)
Theorem shading_mode_tables_agree :
  map fst ShadingModeNames = map fst ShadingModeValues ∧
  NoDup (map fst ShadingModeValues) ∧
  NoDup (map snd ShadingModeValues) ∧
  NoDup (map snd ShadingModeNames) ∧
  (∀ mode, mode ∈ map snd ShadingModeValues).
Proof.
  split_and!.
  - reflexivity.
  - apply (bool_decide_unpack _). by vm_compute.
  - apply (bool_decide_unpack _). by vm_compute.
  - apply (bool_decide_unpack _). by vm_compute.
  - intros mode. apply (bool_decide_unpack _). by destruct mode; vm_compute.
Qed.

Lemma NoDup_map_unique {A B} (f : A → B) (l : list A) (x y : A) :
  NoDup (map f l) → x ∈ l → y ∈ l → f x = f y → x = y.
Proof.
  induction l as [|z l IH]; simpl; [by intros _ ?%elem_of_nil|].
  intros [Hz Hl]%NoDup_cons [->|Hx]%elem_of_cons [->|Hy]%elem_of_cons Hf.
  - done.
  - exfalso. apply Hz. rewrite Hf. apply list_elem_of_In, in_map.
    by apply list_elem_of_In.
  - exfalso. apply Hz. rewrite <- Hf. apply list_elem_of_In, in_map.
    by apply list_elem_of_In.
  - by apply IH.
Qed.

Lemma keys_distinct : NoDup (map fst ShadingModeValues).
Proof. apply (bool_decide_unpack _). by vm_compute. Qed.

Lemma modes_distinct : NoDup (map snd ShadingModeValues).
Proof. apply (bool_decide_unpack _). by vm_compute. Qed.

Variable lookup_kvpair_array :
  list (string * ShadingMode) → string → option (string * ShadingMode).

(** What is asked of the lookup: a pair it returns is in the array and has
    the key, and it returns null only when no pair of the array has the
    key. *)
Hypothesis lookup_found : ∀ kvpairs key pair,
  lookup_kvpair_array kvpairs key = Some pair → pair ∈ kvpairs ∧ pair.1 = key.
Hypothesis lookup_not_found : ∀ kvpairs key,
  lookup_kvpair_array kvpairs key = None → ∀ pair, pair ∈ kvpairs → pair.1 ≠ key.

Lemma extract_shading_mode_found count mode_string mode :
  (mode_string, mode) ∈ take count ShadingModeValues →
  extract_shading_mode lookup_kvpair_array count mode_string = (mode, false).
Proof.
  intros Hin. unfold extract_shading_mode.
  destruct (lookup_kvpair_array _ mode_string) as [pair|] eqn:Hlookup.
  - destruct (lookup_found _ _ _ Hlookup) as [Hpair Hkey].
    assert (pair = (mode_string, mode)) as ->; [|done].
    apply (NoDup_map_unique fst ShadingModeValues); [apply keys_distinct|..|done].
    + by apply (subseteq_take count).
    + by apply (subseteq_take count).
  - exfalso. by apply (lookup_not_found _ _ Hlookup _ Hin).
Qed.

Lemma extract_shading_mode_inv count mode_string mode :
  extract_shading_mode lookup_kvpair_array count mode_string = (mode, false) →
  (mode_string, mode) ∈ take count ShadingModeValues.
Proof.
  unfold extract_shading_mode.
  destruct (lookup_kvpair_array _ mode_string) as [[key mode']|] eqn:Hlookup;
    [|done].
  destruct (lookup_found _ _ _ Hlookup) as [Hpair Hkey]. simpl in *.
  intros [= <-]. by subst.
Qed.

(** X19.  Every mode string that the drop-down list of the widget
    definition offers is one that [extract_parameters] accepts without an
    error, two mode strings never give the same mode, a string that is not
    in the table gives [Coverage] with the error logged, and the default
    "coverage" gives [Coverage]. *)
Theorem advertised_modes_parse (count : nat) :
  (∀ name value, (name, value) ∈ model_items count →
     ∃ mode, extract_shading_mode lookup_kvpair_array count value = (mode, false) ∧
             (value, mode) ∈ ShadingModeValues) ∧
  (∀ value value' mode,
     extract_shading_mode lookup_kvpair_array count value = (mode, false) →
     extract_shading_mode lookup_kvpair_array count value' = (mode, false) →
     value = value') ∧
  (∀ mode_string,
     mode_string ∉ map fst (take count ShadingModeValues) →
     extract_shading_mode lookup_kvpair_array count mode_string = (Coverage, true)) ∧
  (1 ≤ count →
     extract_shading_mode lookup_kvpair_array count default_mode_string =
       (Coverage, false)).
Proof.
  split_and!.
  - intros name value Hin. unfold model_items in Hin.
    apply list_elem_of_In, in_map_iff in Hin as ([key name'] & [= <- <-] & Hin).
    assert (Hkey : In key (map fst (take count ShadingModeValues))).
    { rewrite <- firstn_map.
      change (map fst ShadingModeValues) with (map fst ShadingModeNames).
      rewrite firstn_map. by apply (in_map fst) in Hin. }
    apply in_map_iff in Hkey as ([key' mode] & Heq & Hmode). simpl in Heq. subst.
    apply list_elem_of_In in Hmode. exists mode. split.
    + by apply extract_shading_mode_found.
    + by apply (subseteq_take count).
  - intros value value' mode Hv Hv'.
    apply extract_shading_mode_inv, (subseteq_take count) in Hv, Hv'.
    by apply (f_equal fst
      (NoDup_map_unique snd ShadingModeValues _ _ modes_distinct Hv Hv' eq_refl)).
  - intros mode_string Hnot. unfold extract_shading_mode.
    destruct (lookup_kvpair_array _ mode_string) as [pair|] eqn:Hlookup; [|done].
    destruct (lookup_found _ _ _ Hlookup) as [Hpair <-].
    exfalso. apply Hnot, list_elem_of_In, in_map. by apply list_elem_of_In.
  - intros Hcount. apply extract_shading_mode_found.
    destruct count as [|count]; [lia|]. simpl. apply list_elem_of_here.
Qed.

End ShadingModes.

Lemma find_kvpair_found kvpairs key pair :
  DiagnosticSurfaceShader.find_kvpair kvpairs key = Some pair →
  pair ∈ kvpairs ∧ pair.1 = key.
Proof.
  intros [Hin Heq]%find_some. split; [by apply list_elem_of_In|].
  by apply String.eqb_eq.
Qed.

Lemma find_kvpair_not_found kvpairs key :
  DiagnosticSurfaceShader.find_kvpair kvpairs key = None →
  ∀ pair, pair ∈ kvpairs → pair.1 ≠ key.
Proof.
  intros Hnone pair Hin%list_elem_of_In.
  by apply String.eqb_neq, (find_none _ _ Hnone).
Qed.

(** With the linear search and all seventeen entries: "wireframe" is
    accepted, "wire" is not. *)
Lemma modes_parse_with_find :
  (∃ mode,
     DiagnosticSurfaceShader.extract_shading_mode
       DiagnosticSurfaceShader.find_kvpair 17 "wireframe" = (mode, false) ∧
     ("wireframe", mode) ∈ DiagnosticSurfaceShader.ShadingModeValues) ∧
  DiagnosticSurfaceShader.extract_shading_mode
    DiagnosticSurfaceShader.find_kvpair 17 "wire" =
    (DiagnosticSurfaceShader.Coverage, true) ∧
  DiagnosticSurfaceShader.extract_shading_mode
    DiagnosticSurfaceShader.find_kvpair 17
    DiagnosticSurfaceShader.default_mode_string =
    (DiagnosticSurfaceShader.Coverage, false).
Proof.
  destruct (advertised_modes_parse DiagnosticSurfaceShader.find_kvpair
              find_kvpair_found find_kvpair_not_found 17)
    as (Hoffered & _ & Hfallback & Hdefault).
  split_and!.
  - apply (Hoffered "Wireframe" "wireframe").
    apply (bool_decide_unpack _). by vm_compute.
  - apply Hfallback. apply (bool_decide_unpack _). by vm_compute.
  - apply Hdefault. repeat constructor.
Defined.
